(** * Kronecker-product linear algebra on TT-matrices: [kronecker.py]

    A shallow embedding of the module [kronecker.py] (functions
    [determinant], [log_determinant], [inv], [cholesky] and [_is_kron])
    and the properties its specification states about it.

    What the module imports is not part of it and is taken as given:
    - the dense primitives of the numeric backend ([tf.matrix_determinant],
      [tf.matrix_inverse], [tf.cholesky], [tf.log], [tf.pow] and the
      arithmetic of scalar tensors) are the fields of the class [Backend];
    - the class [TensorTrain] is modelled from the data model of the
      specification.

    Python behaviour that the functions rely on is written out: exceptions
    are the left summand of the result, [int / 0] raises, [max] of an empty
    sequence raises, and slicing a dimension of size 0 at index 0 raises.
    Every computation also records which cores it fetched and on which core
    a dense primitive was invoked, so that "before any decomposition" is a
    statement about the recorded trace. *)

From Stdlib Require Import String.
From Stdlib Require Import List Arith Bool Lia Permutation.
From Stdlib Require Import ZArith QArith Reals Lra.
From Stdlib Require PrimFloat.
Import ListNotations.

#[local] Close Scope Q_scope.
#[local] Close Scope R_scope.
#[local] Open Scope nat_scope.

(* ===================================================================== *)
(** * Exceptions, events and the monad of the embedding *)
(* ===================================================================== *)

(** The dense primitives whose invocation is recorded. *)
Inductive prim : Type :=
| MatrixDeterminant   (* tf.matrix_determinant *)
| MatrixInverse       (* tf.matrix_inverse *)
| Cholesky.           (* tf.cholesky *)

(** What a run can raise. [ValueError] carries the message, as the module's
    own [raise ValueError('...')] statements differ only by it. *)
Inductive exn : Type :=
| ValueError (msg : string)
| ZeroDivisionError
| IndexError
| SliceError              (* core[0, :, :, 0] on a core with an empty rank dimension *)
| NumericFailure (p : prim).

(** What a run does to the cores. *)
Inductive event : Type :=
| GetCore (core_idx : nat)             (* tt_cores[core_idx] *)
| Call (p : prim) (core_idx : nat).    (* primitive p applied to the slice of that core *)

(** A computation: the events it performed, then an exception or a value. *)
Definition M (A : Type) : Type := (list event * (exn + A))%type.

Definition ret {A : Type} (x : A) : M A := ([], inr x).

Definition raise {A : Type} (e : exn) : M A := ([], inl e).

Definition tell (ev : event) : M unit := ([ev], inr tt).

Definition bind {A B : Type} (m : M A) (f : A -> M B) : M B :=
  match m with
  | (t, inl e) => (t, inl e)
  | (t, inr x) => let (t', r) := f x in (t ++ t', r)
  end.

Declare Scope py_scope.
Delimit Scope py_scope with py.
Notation "x <- m ;; k" := (bind m (fun x => k))
  (at level 61, m at next level, right associativity) : py_scope.
Notation "m ;;; k" := (bind m (fun _ => k))
  (at level 61, right associativity) : py_scope.
#[local] Open Scope py_scope.

Definition trace {A : Type} (m : M A) : list event := fst m.

Definition result {A : Type} (m : M A) : exn + A := snd m.

(** [for x in xs: s = body(x, s)] *)
Fixpoint for_each {I St : Type} (xs : list I) (body : I -> St -> M St) (s : St) : M St :=
  match xs with
  | [] => ret s
  | x :: xs' => s' <- body x s ;; for_each xs' body s'
  end.

(** [range(n)] *)
Definition range (n : nat) : list nat := seq 0 n.

(** [a / b] on Python integers. The divisions of this module are exact
    ([b] divides [a]), so Python 2's integer quotient and Python 3's float
    quotient denote the same number. *)
Definition py_div (a b : nat) : M nat :=
  if b =? 0 then raise ZeroDivisionError else ret (a / b).

(** [max(xs)] *)
Definition py_max (xs : list nat) : M nat :=
  match xs with
  | [] => raise (ValueError "max() arg is an empty sequence")
  | x :: xs' => ret (fold_left Nat.max xs' x)
  end.

(** Is [ev] the invocation of a dense primitive? *)
Definition is_call (ev : event) : bool :=
  match ev with Call _ _ => true | GetCore _ => false end.

(** The invocations of dense primitives in a trace, in order. *)
Definition calls (t : list event) : list event := filter is_call t.

(* ===================================================================== *)
(** * The numeric backend *)
(* ===================================================================== *)

(** The dense linear algebra the module calls. [Scalar] is a 0-dimensional
    tensor, [Matrix] a 2-dimensional one with its static shape. A primitive
    that can fail (singular or not positive-definite input) returns [None]. *)
Class Backend : Type := {
  Scalar : Type;
  Matrix : Type;
  mshape : Matrix -> nat * nat;
  of_int : nat -> Scalar;                    (* a Python integer used as a tensor *)
  tf_add : Scalar -> Scalar -> Scalar;
  tf_mul : Scalar -> Scalar -> Scalar;
  tf_pow : Scalar -> nat -> Scalar;          (* tf.pow(x, n), n a Python number *)
  tf_log : Scalar -> Scalar;
  tf_matrix_determinant : Matrix -> Scalar;
  tf_matrix_inverse : Matrix -> option Matrix;
  tf_cholesky : Matrix -> option Matrix
}.

(** The module's three messages. Two adjacent string literals in the source
    concatenate without a blank. *)
Definition msg_ranks : string :=
  "The argument should be a Kronecker product (tt-ranks should be 1)".

Definition msg_kron : string :=
  "The argument should be a Kronecker product".

Definition msg_square : string :=
  "The argument should be a Kronecker product of square matrices(tt-cores must be square)".

(** The structural-validation errors: the [ValueError]s this module raises. *)
Definition structural (e : exn) : bool :=
  match e with
  | ValueError msg =>
      String.eqb msg msg_ranks || String.eqb msg msg_kron || String.eqb msg msg_square
  | _ => false
  end.

(** A run that ends in a structural-validation error. *)
Definition raises_structural {A : Type} (m : M A) : bool :=
  match result m with inl e => structural e | inr _ => false end.

(** A run fails before any decomposition: it ends in the structural error
    and has invoked no dense primitive. *)
Definition fails_before_decomposition {A : Type} (m : M A) : Prop :=
  raises_structural m = true /\ calls (trace m) = [].

(** Two runs perform the same events and end alike: both return, or both
    raise the same exception. *)
Definition same_outcome {A C : Type} (m : M A) (m' : M C) : Prop :=
  trace m = trace m' /\
  match result m, result m' with
  | inl e, inl e' => e = e'
  | inr _, inr _ => True
  | _, _ => False
  end.

Section Model.

Context {B : Backend}.

(* ===================================================================== *)
(** * Cores and TT-objects *)
(* ===================================================================== *)

(** A TT-core: a 4-dimensional tensor of static shape
    [(dim0, dim1, dim2, dim3)], stored as the [dim0 x dim3] grid of its
    [dim1 x dim2] matrices [core[i, :, :, j]]. Every dimension of the
    static shape is known: [core.get_shape()[1]] is [dim1 core] and
    [core.get_shape()[2]] is [dim2 core]. *)
Record Core : Type := mkCore {
  dim0 : nat;
  dim1 : nat;
  dim2 : nat;
  dim3 : nat;
  core_data : list (list Matrix)
}.

(** [core[0, :, :, 0]] *)
Definition slice00 (core : Core) : M Matrix :=
  match core_data core with
  | (m :: _) :: _ => ret m
  | _ => raise SliceError
  end.

(** [tf.expand_dims(tf.expand_dims(m, 0), -1)] *)
Definition expand_dims2 (m : Matrix) : Core :=
  mkCore 1 (fst (mshape m)) (snd (mshape m)) 1 [[m]].

(** Modelled from the spec: the shape descriptor of a factored value, which
    also tells a matrix from a vector (class [TensorTrain] is imported, not
    part of the module). A matrix gives the row and the column size of each
    factor, a vector one size per factor. *)
Inductive RawShape : Type :=
| MatrixShape (row_dims col_dims : list nat)
| VectorShape (dims : list nat).

(** Modelled from the spec: a factored value is the ordered sequence of its
    cores, its shape descriptor and its linking-rank sequence, and
    [TensorTrain(cores, shape, ranks)] builds one from the three. *)
Record TensorTrain : Type := mkTensorTrain {
  tt_cores : list Core;
  raw_shape : RawShape;
  tt_ranks : list nat
}.

(** Modelled from the spec: the accessors of [TensorTrain] the module uses. *)
Definition is_tt_matrix (tt_a : TensorTrain) : bool :=
  match raw_shape tt_a with MatrixShape _ _ => true | VectorShape _ => false end.

Definition get_tt_ranks (tt_a : TensorTrain) : list nat := tt_ranks tt_a.

Definition get_raw_shape (tt_a : TensorTrain) : RawShape := raw_shape tt_a.

Definition ndims (tt_a : TensorTrain) : nat := length (tt_cores tt_a).

(** [cores[core_idx]] *)
Definition get_core (cores : list Core) (core_idx : nat) : M Core :=
  match nth_error cores core_idx with
  | Some core => tell (GetCore core_idx) ;;; ret core
  | None => raise IndexError
  end.

(** The invocation of primitive [p] on the slice of core [core_idx]. *)
Definition call {A : Type} (p : prim) (core_idx : nat) (r : option A) : M A :=
  tell (Call p core_idx) ;;;
  match r with
  | Some x => ret x
  | None => raise (NumericFailure p)
  end.

(* ===================================================================== *)
(** * The module *)
(* ===================================================================== *)

(** [_is_kron(tt_a)] *)
Definition _is_kron (tt_a : TensorTrain) : M bool :=
  if is_tt_matrix tt_a then
    m <- py_max (get_tt_ranks tt_a) ;;
    ret (m =? 1)
  else ret false.

(** The first loop of [determinant] and [log_determinant]: every core must
    be square, and [pows] becomes the product of the side lengths. *)
Definition square_pass (kron_a : TensorTrain) : M nat :=
  for_each (range (ndims kron_a))
    (fun core_idx pows =>
       core <- get_core (tt_cores kron_a) core_idx ;;
       if negb (dim1 core =? dim2 core) then raise (ValueError msg_square)
       else ret (pows * dim1 core))
    1.

(** [determinant(kron_a)] *)
Definition determinant (kron_a : TensorTrain) : M Scalar :=
  ok <- _is_kron kron_a ;;
  if negb ok then raise (ValueError msg_ranks) else
  let cores := tt_cores kron_a in
  pows <- square_pass kron_a ;;
  for_each (range (ndims kron_a))
    (fun core_idx det =>
       core <- get_core cores core_idx ;;
       m <- slice00 core ;;
       d <- call MatrixDeterminant core_idx (Some (tf_matrix_determinant m)) ;;
       e <- py_div pows (dim1 core) ;;
       ret (tf_mul det (tf_pow d e)))
    (of_int 1).

(** [log_determinant(kron_a)] *)
Definition log_determinant (kron_a : TensorTrain) : M Scalar :=
  ok <- _is_kron kron_a ;;
  if negb ok then raise (ValueError msg_ranks) else
  pows <- square_pass kron_a ;;
  for_each (range (ndims kron_a))
    (fun core_idx logdet =>
       core <- get_core (tt_cores kron_a) core_idx ;;
       m <- slice00 core ;;
       d <- call MatrixDeterminant core_idx (Some (tf_matrix_determinant m)) ;;
       e <- py_div pows (dim1 core) ;;
       ret (tf_add logdet (tf_mul (tf_log d) (of_int e))))
    (of_int 0).

(** The loop of [inv] and [cholesky]: each core is checked and transformed
    in the same iteration, and the transformed core is appended. *)
Definition transform_pass (p : prim) (f : Matrix -> option Matrix)
    (kron_a : TensorTrain) : M (list Core) :=
  for_each (range (ndims kron_a))
    (fun core_idx new_cores =>
       core <- get_core (tt_cores kron_a) core_idx ;;
       if negb (dim1 core =? dim2 core) then raise (ValueError msg_square) else
       m <- slice00 core ;;
       m' <- call p core_idx (f m) ;;
       ret (new_cores ++ [expand_dims2 m']))
    [].

(** [inv(kron_a)] *)
Definition inv (kron_a : TensorTrain) : M TensorTrain :=
  ok <- _is_kron kron_a ;;
  if negb ok then raise (ValueError msg_ranks) else
  inv_cores <- transform_pass MatrixInverse tf_matrix_inverse kron_a ;;
  let res_ranks := repeat 1 (ndims kron_a + 1) in
  let res_shape := get_raw_shape kron_a in
  ret (mkTensorTrain inv_cores res_shape res_ranks).

(** [cholesky(kron_a)] *)
Definition cholesky (kron_a : TensorTrain) : M TensorTrain :=
  ok <- _is_kron kron_a ;;
  if negb ok then raise (ValueError msg_kron) else
  cho_cores <- transform_pass Cholesky tf_cholesky kron_a ;;
  let res_ranks := repeat 1 (ndims kron_a + 1) in
  let res_shape := get_raw_shape kron_a in
  ret (mkTensorTrain cho_cores res_shape res_ranks).

(* ===================================================================== *)
(** * The module on a store of list objects *)
(* ===================================================================== *)

(** Python lists are mutable objects: [inv_cores = []] allocates one and
    [inv_cores.append(x)] updates it in place, while tensors cannot be
    changed. To say that [inv] and [cholesky] leave their argument alone,
    the two functions are also written over a store of list objects, in
    which a factored value holds the address of its list of cores. *)
Definition store : Type := list (list Core).

Record TensorTrainObject : Type := mkObject {
  cores_ref : nat;
  object_shape : RawShape;
  object_ranks : list nat
}.

(** The value an object stands for in a store. *)
Definition deref (h : store) (a : TensorTrainObject) : TensorTrain :=
  mkTensorTrain (nth (cores_ref a) h []) (object_shape a) (object_ranks a).

(** A computation on the store. *)
Definition SM (A : Type) : Type := store -> store * M A.

Definition sret {A : Type} (x : A) : SM A := fun h => (h, ret x).

Definition slift {A : Type} (m : M A) : SM A := fun h => (h, m).

Definition sread {A : Type} (g : store -> M A) : SM A := fun h => (h, g h).

Definition sbind {A C : Type} (m : SM A) (f : A -> SM C) : SM C :=
  fun h =>
    match m h with
    | (h1, (t, inl e)) => (h1, (t, inl e))
    | (h1, (t, inr x)) =>
        match f x h1 with
        | (h2, (t', r)) => (h2, (t ++ t', r))
        end
    end.

Notation "x <~ m ;; k" := (sbind m (fun x => k))
  (at level 61, m at next level, right associativity) : py_scope.

(** [l[i] = xs] on the store. *)
Fixpoint set_nth (l : nat) (xs : list Core) (h : store) : store :=
  match h, l with
  | [], _ => []
  | _ :: h', 0 => xs :: h'
  | ys :: h', S l' => ys :: set_nth l' xs h'
  end.

(** [[]]: a new list object, at a fresh address. *)
Definition new_list : SM nat := fun h => (h ++ [[]], ret (length h)).

(** [l.append(x)] *)
Definition list_append (l : nat) (x : Core) : SM unit :=
  fun h => (set_nth l (nth l h [] ++ [x]) h, ret tt).

(** [l[i]] *)
Definition list_item (l i : nat) : SM Core :=
  sread (fun h => get_core (nth l h []) i).

(** [for x in xs: body(x)] on the store. *)
Fixpoint sfor {I : Type} (xs : list I) (body : I -> SM unit) : SM unit :=
  match xs with
  | [] => sret tt
  | x :: xs' => _ <~ body x ;; sfor xs' body
  end.

(** The body of the loop of [inv] and [cholesky] on the store: [src] is the
    address of the cores of the argument, [dst] that of the list under
    construction. *)
Definition store_body (p : prim) (f : Matrix -> option Matrix) (src dst : nat)
    (core_idx : nat) : SM unit :=
  core <~ list_item src core_idx ;;
  if negb (dim1 core =? dim2 core) then slift (raise (ValueError msg_square))
  else
    m <~ slift (slice00 core) ;;
    m' <~ slift (call p core_idx (f m)) ;;
    list_append dst (expand_dims2 m').

(** [inv] (with [MatrixInverse], [tf_matrix_inverse] and [msg_ranks]) and
    [cholesky] (with [Cholesky], [tf_cholesky] and [msg_kron]) on the
    store. *)
Definition rebuild_in_store (p : prim) (f : Matrix -> option Matrix) (msg : string)
    (kron_a : TensorTrainObject) : SM TensorTrainObject :=
  ok <~ sread (fun h => _is_kron (deref h kron_a)) ;;
  if negb ok then slift (raise (ValueError msg)) else
  new_cores <~ new_list ;;
  n <~ sread (fun h => ret (ndims (deref h kron_a))) ;;
  _ <~ sfor (range n) (store_body p f (cores_ref kron_a) new_cores) ;;
  sret (mkObject new_cores (object_shape kron_a) (repeat 1 (n + 1))).

Definition inv_in_store (kron_a : TensorTrainObject) : SM TensorTrainObject :=
  rebuild_in_store MatrixInverse tf_matrix_inverse msg_ranks kron_a.

Definition cholesky_in_store (kron_a : TensorTrainObject) : SM TensorTrainObject :=
  rebuild_in_store Cholesky tf_cholesky msg_kron kron_a.

(** A loop [for core_idx in range(len(cores))] whose body starts by
    fetching [cores[core_idx]], written by recursion on the cores that are
    left; [core_idx] is the index of the first of them. *)
Fixpoint for_cores {St : Type} (cores : list Core) (core_idx : nat)
    (body : nat -> Core -> St -> M St) (s : St) : M St :=
  match cores with
  | [] => ret s
  | core :: cores' =>
      s' <- (tell (GetCore core_idx) ;;; body core_idx core s) ;;
      for_cores cores' (S core_idx) body s'
  end.

(* ===================================================================== *)
(** * Well-formed values and the quantities the properties speak of *)
(* ===================================================================== *)

(** A core is well-formed when its dimensions are positive and its data
    fills its static shape: [dim0] rows of [dim3] matrices, each of shape
    [(dim1, dim2)]. *)
Definition wf_core (core : Core) : bool :=
  (0 <? dim1 core) && (0 <? dim2 core) &&
  (length (core_data core) =? dim0 core) &&
  forallb (fun row =>
             (length row =? dim3 core) &&
             forallb (fun m => (fst (mshape m) =? dim1 core) &&
                               (snd (mshape m) =? dim2 core)) row)
          (core_data core).

(** The linking ranks bracket the cores: core [i] has shape
    [(ranks[i], _, _, ranks[i+1])], so [k] cores come with [k+1] ranks. *)
Fixpoint linked (cores : list Core) (ranks : list nat) : bool :=
  match cores, ranks with
  | [], [_] => true
  | core :: cores', r :: ((r' :: _) as ranks') =>
      (dim0 core =? r) && (dim3 core =? r') && linked cores' ranks'
  | _, _ => false
  end.

(** Modelled from the spec: the invariant of a factored value. Its cores are
    well-formed, its linking ranks are positive and bracket the cores. *)
Definition wf_tt (tt_a : TensorTrain) : bool :=
  forallb wf_core (tt_cores tt_a) &&
  linked (tt_cores tt_a) (tt_ranks tt_a) &&
  forallb (fun r => 0 <? r) (tt_ranks tt_a).

(** Every core is square. *)
Definition all_square (tt_a : TensorTrain) : bool :=
  forallb (fun core => dim1 core =? dim2 core) (tt_cores tt_a).

(** A valid Kronecker input with square factors: a well-formed value that
    passes the structure validator and whose cores are all square. *)
Definition valid_kron (kron_a : TensorTrain) : Prop :=
  wf_tt kron_a = true /\ _is_kron kron_a = ret true /\ all_square kron_a = true.

(** The factor a core holds, [core[0, :, :, 0]], when it has one. *)
Definition factor_of (core : Core) : list Matrix :=
  match core_data core with
  | (m :: _) :: _ => [m]
  | _ => []
  end.

(** The factors of a value, in order. *)
Definition factors (kron_a : TensorTrain) : list Matrix :=
  flat_map factor_of (tt_cores kron_a).

(** The side length of a square factor. *)
Definition side (m : Matrix) : nat := fst (mshape m).

(** N, the product of the side lengths. *)
Definition kron_size (fs : list Matrix) : nat :=
  fold_right Nat.mul 1 (map side fs).

(** The exponent of factor [m] in a product of the factors [fs]: N / side. *)
Definition exponent (fs : list Matrix) (m : Matrix) : nat :=
  kron_size fs / side m.

(** The product of the scalars [xs], taken from the left starting at 1. *)
Definition product (xs : list Scalar) : Scalar := fold_left tf_mul xs (of_int 1).

(** The sum of the scalars [xs], taken from the left starting at 0. *)
Definition total (xs : list Scalar) : Scalar := fold_left tf_add xs (of_int 0).

(** The Kronecker determinant identity: the product over the factors of
    det(factor) ^ (N / side). *)
Definition kron_det (fs : list Matrix) : Scalar :=
  product (map (fun m => tf_pow (tf_matrix_determinant m) (exponent fs m)) fs).

(** Its logarithmic form: the sum over the factors of
    log(det(factor)) * (N / side). *)
Definition kron_logdet (fs : list Matrix) : Scalar :=
  total (map (fun m => tf_mul (tf_log (tf_matrix_determinant m))
                              (of_int (exponent fs m))) fs).

(** The value [inv] and [cholesky] assemble from the transformed factors
    [fs'] for the input [kron_a]. *)
Definition rebuilt (kron_a : TensorTrain) (fs' : list Matrix) : TensorTrain :=
  mkTensorTrain (map expand_dims2 fs') (raw_shape kron_a)
                (repeat 1 (length (tt_cores kron_a) + 1)).

(** All of [f m], for [m] in [ms], when none fails. *)
Fixpoint map_option {A C : Type} (f : A -> option C) (ms : list A) : option (list C) :=
  match ms with
  | [] => Some []
  | m :: ms' =>
      match f m, map_option f ms' with
      | Some m', Some r => Some (m' :: r)
      | _, _ => None
      end
  end.

(** The index of the first core that is not square, if there is one. *)
Fixpoint first_non_square (cores : list Core) : option nat :=
  match cores with
  | [] => None
  | core :: cores' =>
      if dim1 core =? dim2 core
      then option_map S (first_non_square cores')
      else Some 0
  end.

(* ===================================================================== *)
(** * The loops and runs the properties speak of *)
(* ===================================================================== *)

(** The factors are square matrices of positive side. *)
Definition square_factors (fs : list Matrix) : Prop :=
  Forall (fun m => snd (mshape m) = side m /\ 0 < side m) fs.

(** The events of the second pass of [determinant] and [log_determinant]
    over the cores [i .. i + n - 1]. *)
Definition scalar_pass_trace (i n : nat) : list event :=
  flat_map (fun j => [GetCore j; Call MatrixDeterminant j]) (seq i n).

(** The events of a run of [determinant] or [log_determinant] on a valid
    input with [k] cores: the squareness pass, then the pass that invokes
    the determinant primitive on each factor. *)
Definition scalar_run_trace (k : nat) : list event :=
  map GetCore (seq 0 k) ++ scalar_pass_trace 0 k.

(** The body of the loop of [inv] and [cholesky]. *)
Definition transform_body (p : prim) (f : Matrix -> option Matrix)
    (core_idx : nat) (core : Core) (new_cores : list Core) : M (list Core) :=
  if negb (dim1 core =? dim2 core) then raise (ValueError msg_square) else
  m <- slice00 core ;;
  m' <- call p core_idx (f m) ;;
  ret (new_cores ++ [expand_dims2 m']).

(** The primitive accepts the factor of [core]. *)
Definition transformable (f : Matrix -> option Matrix) (core : Core) : Prop :=
  exists m m', slice00 core = ret m /\ f m = Some m'.

(** The common form of [inv] and [cholesky]: validate, transform each
    factor with primitive [p], assemble the result. *)
Definition rebuild_with (p : prim) (f : Matrix -> option Matrix) (msg : string)
    (kron_a : TensorTrain) : M TensorTrain :=
  ok <- _is_kron kron_a ;;
  if negb ok then raise (ValueError msg) else
  new_cores <- transform_pass p f kron_a ;;
  let res_ranks := repeat 1 (ndims kron_a + 1) in
  let res_shape := get_raw_shape kron_a in
  ret (mkTensorTrain new_cores res_shape res_ranks).

(** The events of a run of [inv] or [cholesky] that reaches the end. *)
Definition rebuild_trace (p : prim) (k : nat) : list event :=
  flat_map (fun j => [GetCore j; Call p j]) (seq 0 k).

(** C2, as stated: on every input with a core that is not square, each of
    the four operations raises the structural error before any dense
    primitive is invoked. *)
Definition fail_fast_on_non_square : Prop :=
  forall kron_a : TensorTrain,
    Exists (fun core => dim1 core <> dim2 core) (tt_cores kron_a) ->
    fails_before_decomposition (determinant kron_a) /\
    fails_before_decomposition (log_determinant kron_a) /\
    fails_before_decomposition (inv kron_a) /\
    fails_before_decomposition (cholesky kron_a).

(** C4, as stated: on every valid Kronecker input whose factor determinants
    are all strictly positive, [log_determinant] returns the logarithm of
    the value that [determinant] returns. *)
Definition log_determinant_consistent (positive : Scalar -> Prop) : Prop :=
  forall kron_a : TensorTrain,
    valid_kron kron_a ->
    Forall (fun m => positive (tf_matrix_determinant m)) (factors kron_a) ->
    exists d : Scalar,
      result (determinant kron_a) = inr d /\
      result (log_determinant kron_a) = inr (tf_log d).

(** C7, as stated: two valid Kronecker inputs whose cores are the same up
    to their order have the same determinant and log-determinant. *)
Definition scalar_results_order_free : Prop :=
  forall kron_a kron_b : TensorTrain,
    valid_kron kron_a ->
    valid_kron kron_b ->
    Permutation (tt_cores kron_a) (tt_cores kron_b) ->
    result (determinant kron_a) = result (determinant kron_b) /\
    result (log_determinant kron_a) = result (log_determinant kron_b).

(** The body of the second loop of [determinant] and [log_determinant],
    after the core is fetched; [step] folds the determinant [d] of the
    factor and its exponent [e] into the accumulator. *)
Definition scalar_body (step : Scalar -> Scalar -> nat -> Scalar) (pows : nat)
    (core_idx : nat) (core : Core) (acc : Scalar) : M Scalar :=
  m <- slice00 core ;;
  d <- call MatrixDeterminant core_idx (Some (tf_matrix_determinant m)) ;;
  e <- py_div pows (dim1 core) ;;
  ret (step acc d e).

(** The accumulation steps of [determinant] and of [log_determinant]. *)
Definition det_step (acc d : Scalar) (e : nat) : Scalar :=
  tf_mul acc (tf_pow d e).

Definition logdet_step (acc d : Scalar) (e : nat) : Scalar :=
  tf_add acc (tf_mul (tf_log d) (of_int e)).

End Model.

Notation "x <~ m ;; k" := (sbind m (fun x => k))
  (at level 61, m at next level, right associativity) : py_scope.

(* ===================================================================== *)
(** * Two backends *)
(* ===================================================================== *)

(** Exact dense linear algebra on matrices of rationals. It serves to run
    the module on concrete inputs. *)
Module Rational.

(** A matrix, by rows. *)
Definition QMatrix : Type := list (list Q).

(** The static shape: the number of rows and the length of the first row. *)
Definition q_shape (m : QMatrix) : nat * nat :=
  (length m, match m with [] => 0 | row :: _ => length row end).

(** [l] without its [j]-th element. *)
Fixpoint drop_nth {X : Type} (j : nat) (l : list X) : list X :=
  match l, j with
  | [], _ => []
  | _ :: l', 0 => l'
  | x :: l', S j' => x :: drop_nth j' l'
  end.

(** [m] without row [i] and column [j]. *)
Definition minor (i j : nat) (m : QMatrix) : QMatrix :=
  map (drop_nth j) (drop_nth i m).

Definition sign (k : nat) : Q := if Nat.even k then 1%Q else (-1)%Q.

Definition q_sum (xs : list Q) : Q := fold_left Qplus xs 0%Q.

(** The determinant, by expansion along the first row. *)
Fixpoint det_fuel (n : nat) (m : QMatrix) : Q :=
  match n, m with
  | S n', row :: rest =>
      q_sum (map (fun jx => (sign (fst jx) * snd jx *
                             det_fuel n' (map (drop_nth (fst jx)) rest))%Q)
                 (combine (seq 0 (length row)) row))
  | _, _ => 1%Q
  end.

Definition q_det (m : QMatrix) : Q := Qred (det_fuel (length m) m).

Definition is_square (m : QMatrix) : bool :=
  forallb (fun row => length row =? length m) m.

(** The inverse, as the adjugate over the determinant; [None] on a singular
    matrix. *)
Definition q_inverse (m : QMatrix) : option QMatrix :=
  let d := q_det m in
  if negb (is_square m) || Qeq_bool d 0 then None
  else
    let n := length m in
    Some (map (fun i =>
                 map (fun j => Qred (sign (i + j) * q_det (minor j i m) / d)%Q)
                     (seq 0 n))
              (seq 0 n)).

(** The square root of a positive rational that has a rational one. *)
Definition q_sqrt (x : Q) : option Q :=
  let x := Qred x in
  let n := Qnum x in
  let d := Z.pos (Qden x) in
  if ((0 <? n) && (Z.sqrt n * Z.sqrt n =? n) && (Z.sqrt d * Z.sqrt d =? d))%Z
  then Some (Z.sqrt n # Z.to_pos (Z.sqrt d))%Q
  else None.

Definition dot (u v : list Q) : Q :=
  q_sum (map (fun ab => (fst ab * snd ab)%Q) (combine u v)).

(** Row [length prev] of the lower Cholesky factor, left of the diagonal:
    [prev] are the rows above, [a] the row of the matrix, [cur] the entries
    found so far. *)
Fixpoint chol_below (prev : list (list Q)) (a : list Q) (cur : list Q) : list Q :=
  match prev with
  | [] => cur
  | lj :: prev' =>
      let j := length cur in
      let x := ((nth j a 0 - dot cur (firstn j lj)) / nth j lj 0)%Q in
      chol_below prev' a (cur ++ [Qred x])
  end.

Definition chol_row (n : nat) (prev : list (list Q)) (a : list Q) : option (list Q) :=
  let cur := chol_below prev a [] in
  let i := length prev in
  match q_sqrt (nth i a 0 - dot cur cur)%Q with
  | Some d => Some (cur ++ [d] ++ repeat 0%Q (n - i - 1))
  | None => None
  end.

Fixpoint chol_rows (n : nat) (prev : list (list Q)) (rows : list (list Q))
    : option (list (list Q)) :=
  match rows with
  | [] => Some prev
  | a :: rows' =>
      match chol_row n prev a with
      | Some l => chol_rows n (prev ++ [l]) rows'
      | None => None
      end
  end.

(** The lower Cholesky factor, row by row; [None] when a pivot is not
    positive (the matrix is not positive-definite) or has no rational square
    root. *)
Definition q_cholesky (m : QMatrix) : option QMatrix :=
  if is_square m then chol_rows (length m) [] m else None.

End Rational.

(** Scalars with the values a floating-point computation can produce
    besides numbers: the two infinities and not-a-number. *)
Inductive xreal : Type :=
| Finite (r : R)
| PlusInf
| MinusInf
| NaN.

Inductive xsign : Type := Negative | Zero | Positive | NoSign.

Definition x_sign (x : xreal) : xsign :=
  match x with
  | Finite r => if Rlt_dec 0 r then Positive else if Rlt_dec r 0 then Negative else Zero
  | PlusInf => Positive
  | MinusInf => Negative
  | NaN => NoSign
  end.

Definition x_add (x y : xreal) : xreal :=
  match x, y with
  | Finite a, Finite b => Finite (a + b)
  | NaN, _ | _, NaN => NaN
  | PlusInf, MinusInf | MinusInf, PlusInf => NaN
  | PlusInf, _ | _, PlusInf => PlusInf
  | MinusInf, _ | _, MinusInf => MinusInf
  end.

Definition x_mul (x y : xreal) : xreal :=
  match x, y with
  | Finite a, Finite b => Finite (a * b)
  | _, _ =>
      match x_sign x, x_sign y with
      | NoSign, _ | _, NoSign | Zero, _ | _, Zero => NaN
      | Positive, Positive | Negative, Negative => PlusInf
      | _, _ => MinusInf
      end
  end.

Fixpoint x_pow (x : xreal) (n : nat) : xreal :=
  match n with
  | 0 => Finite 1
  | S n' => x_mul x (x_pow x n')
  end.

Definition x_log (x : xreal) : xreal :=
  match x with
  | Finite r => if Rlt_dec 0 r then Finite (ln r)
                else if Rlt_dec r 0 then NaN else MinusInf
  | PlusInf => PlusInf
  | MinusInf | NaN => NaN
  end.

Definition x_finite (x : xreal) : Prop :=
  match x with Finite _ => True | _ => False end.

Definition x_nonpositive (x : xreal) : Prop :=
  match x with
  | Finite r => (r <= 0)%R
  | MinusInf => True
  | PlusInf | NaN => False
  end.


(** The backend of real scalars on rational matrices. *)
Definition RealBackend : Backend := {|
  Scalar := R;
  Matrix := Rational.QMatrix;
  mshape := Rational.q_shape;
  of_int := INR;
  tf_add := Rplus;
  tf_mul := Rmult;
  tf_pow := pow;
  tf_log := ln;
  tf_matrix_determinant := fun m => Q2R (Rational.q_det m);
  tf_matrix_inverse := Rational.q_inverse;
  tf_cholesky := Rational.q_cholesky
|}.

(** The backend whose scalars can be infinite or not-a-number. *)
Definition ExtendedBackend : Backend := {|
  Scalar := xreal;
  Matrix := Rational.QMatrix;
  mshape := Rational.q_shape;
  of_int := fun n => Finite (INR n);
  tf_add := x_add;
  tf_mul := x_mul;
  tf_pow := x_pow;
  tf_log := x_log;
  tf_matrix_determinant := fun m => Finite (Q2R (Rational.q_det m));
  tf_matrix_inverse := Rational.q_inverse;
  tf_cholesky := Rational.q_cholesky
|}.

(* ===================================================================== *)
(** * IEEE binary64 scalars *)
(* ===================================================================== *)

Module Double.

Import PrimFloat.

(** A Python integer as a double, by counting: exact below 2^53. *)
Fixpoint of_nat (n : nat) : float :=
  match n with
  | O => 0%float
  | S n' => (of_nat n' + 1)%float
  end.

(** [pow] at an integral exponent: 1 at exponent 0 and the base itself at
    exponent 1, as IEEE 754 has it; above, a product of rounded products. *)
Fixpoint pow (x : float) (n : nat) : float :=
  match n with
  | O => 1%float
  | S O => x
  | S n' => (x * pow x n')%float
  end.

(** The inverse and the Cholesky factor of the 1 x 1 matrix of entry [m]. *)
Definition inverse (m : float) : option float :=
  if (m =? 0)%float then None else Some (1 / m)%float.

Definition cholesky (m : float) : option float :=
  if (0 <? m)%float then Some (sqrt m) else None.

Definition positive (x : float) : Prop := (0 <? x)%float = true.

(** 2^1000, 2^-1000 and the double nearest to the logarithm of 2^1000,
    693.1471805599453. *)
Definition big : float := 0x1p+1000%float.
Definition small : float := 0x1p-1000%float.
Definition log_big : float := 0x1.5a92d6d005c94p+9%float.

(** What the runs below use of the logarithm of the doubles: its values at
    plus infinity and at 2^1000. *)
Definition ieee_log (log : float -> float) : Prop :=
  log infinity = infinity /\ log big = log_big.

End Double.

(** The backend of the doubles with the logarithm [log], over 1 x 1
    matrices, each held as its entry. Every exponent [N / side] is 1 on
    these. *)
Definition DoubleBackend (log : PrimFloat.float -> PrimFloat.float) : Backend := {|
  Scalar := PrimFloat.float;
  Matrix := PrimFloat.float;
  mshape := fun _ => (1, 1);
  of_int := Double.of_nat;
  tf_add := PrimFloat.add;
  tf_mul := PrimFloat.mul;
  tf_pow := Double.pow;
  tf_log := log;
  tf_matrix_determinant := fun m => m;
  tf_matrix_inverse := Double.inverse;
  tf_cholesky := Double.cholesky
|}.

(** The Kronecker value of the factors [fs]. *)
Definition kron_of {B : Backend} (fs : list Matrix) : TensorTrain :=
  mkTensorTrain (map expand_dims2 fs)
                (MatrixShape (map (fun m => fst (mshape m)) fs)
                             (map (fun m => snd (mshape m)) fs))
                (repeat 1 (length fs + 1)).

Module Examples.

(** A 2 x 2 factor of determinant 2 and a 3 x 3 factor of determinant 5. *)
Definition mat_A : Rational.QMatrix := [[3; 1]; [1; 1]]%Q.
Definition mat_B : Rational.QMatrix := [[2; 1; 0]; [1; 3; 0]; [0; 0; 1]]%Q.

(** Two symmetric positive-definite factors with rational Cholesky factors. *)
Definition mat_C : Rational.QMatrix := [[4; 2]; [2; 2]]%Q.
Definition mat_D : Rational.QMatrix := [[4; 2; 2]; [2; 2; 3]; [2; 3; 14]]%Q.

(** Their inverses and their lower Cholesky factors. *)
Definition inv_C : Rational.QMatrix := [[1 # 2; -1 # 2]; [-1 # 2; 1]]%Q.
Definition inv_D : Rational.QMatrix :=
  [[19 # 36; -11 # 18; 1 # 18]; [-11 # 18; 13 # 9; -2 # 9]; [1 # 18; -2 # 9; 1 # 9]]%Q.
Definition chol_C : Rational.QMatrix := [[2; 0]; [1; 1]]%Q.
Definition chol_D : Rational.QMatrix := [[2; 0; 0]; [1; 1; 0]; [1; 2; 3]]%Q.

(** A 2 x 3 matrix and a singular 2 x 2 matrix. *)
Definition mat_R : Rational.QMatrix := [[1; 0; 0]; [0; 1; 0]]%Q.
Definition mat_Z : Rational.QMatrix := [[1; 2]; [2; 4]]%Q.

(** A (x) B, the 6 x 6 matrix of the determinant identity, and B (x) A. *)
Definition kron_AB : @TensorTrain RealBackend :=
  kron_of (B := RealBackend) [mat_A; mat_B].
Definition kron_BA : @TensorTrain RealBackend :=
  kron_of (B := RealBackend) [mat_B; mat_A].

(** C (x) D, whose factors have inverses and Cholesky factors. *)
Definition kron_CD : @TensorTrain RealBackend :=
  kron_of (B := RealBackend) [mat_C; mat_D].

(** The single factor A. *)
Definition kron_A : @TensorTrain RealBackend :=
  kron_of (B := RealBackend) [mat_A].

(** A square factor followed by one that is not square. *)
Definition kron_AR : @TensorTrain RealBackend :=
  kron_of (B := RealBackend) [mat_A; mat_R].

(** A value with linking ranks [(1, 2, 1)]: two cores of shapes
    [(1, 2, 2, 2)] and [(2, 2, 2, 1)]. *)
Definition tt_rank2 : @TensorTrain RealBackend :=
  mkTensorTrain (B := RealBackend)
    [mkCore (B := RealBackend) 1 2 2 2 [[mat_A; mat_C]];
     mkCore (B := RealBackend) 2 2 2 1 [[mat_C]; [mat_A]]]
    (MatrixShape [2; 2] [2; 2])
    [1; 2; 1].

(** A (x) Z, with the singular factor Z, on the extended scalars. *)
Definition kron_AZ : @TensorTrain ExtendedBackend :=
  kron_of (B := ExtendedBackend) [mat_A; mat_Z].

(** Over the doubles: the 1 x 1 factors 2^1000, 2^1000, and the factors
    2^1000, 2^1000, 2^-1000 in two orders. *)
Definition kron_big2 (log : PrimFloat.float -> PrimFloat.float)
    : @TensorTrain (DoubleBackend log) :=
  kron_of (B := DoubleBackend log) [Double.big; Double.big].
Definition kron_bbs (log : PrimFloat.float -> PrimFloat.float)
    : @TensorTrain (DoubleBackend log) :=
  kron_of (B := DoubleBackend log) [Double.big; Double.big; Double.small].
Definition kron_bsb (log : PrimFloat.float -> PrimFloat.float)
    : @TensorTrain (DoubleBackend log) :=
  kron_of (B := DoubleBackend log) [Double.big; Double.small; Double.big].

End Examples.

(* ===================================================================== *)
(** * The monad and the loops *)
(* ===================================================================== *)

Section MonadFacts.

Context {A C : Type}.

Lemma bind_ret (x : A) (f : A -> M C) : bind (ret x) f = f x.
Proof. unfold bind, ret. destruct (f x). reflexivity. Qed.

Lemma bind_raise (e : exn) (f : A -> M C) : bind (raise e) f = raise e.
Proof. reflexivity. Qed.

Lemma bind_value (t : list event) (x : A) (f : A -> M C) :
  bind (t, inr x) f = (t ++ trace (f x), result (f x)).
Proof. unfold bind, trace, result. destruct (f x). reflexivity. Qed.

Lemma bind_error (t : list event) (e : exn) (f : A -> M C) :
  bind (t, inl e) f = (t, inl e).
Proof. reflexivity. Qed.

Lemma run_eta (m : M A) : m = (trace m, result m).
Proof. destruct m. reflexivity. Qed.

End MonadFacts.

Lemma calls_app (t1 t2 : list event) : calls (t1 ++ t2) = calls t1 ++ calls t2.
Proof. unfold calls. apply filter_app. Qed.

Section Loops.

Context {B : Backend}.

(** Fetching a core that is there. *)
Lemma get_core_at (pre : list Core) (core : Core) (post : list Core) :
  get_core (pre ++ core :: post) (length pre) = ([GetCore (length pre)], inr core).
Proof.
  unfold get_core. rewrite nth_error_app2 by lia.
  rewrite Nat.sub_diag. reflexivity.
Qed.

(** A loop over [range(len(cores))] that indexes the cores is the recursion
    on the cores. *)
Lemma for_each_range_cores {St : Type} (body : nat -> Core -> St -> M St) :
  forall (post pre : list Core) (s : St),
    for_each (seq (length pre) (length post))
      (fun core_idx s => core <- get_core (pre ++ post) core_idx ;; body core_idx core s) s
    = for_cores post (length pre) body s.
Proof.
  induction post as [|core post IH]; intros pre s; [reflexivity|].
  cbn [length seq for_each for_cores].
  rewrite get_core_at.
  assert (Hstep : forall (m : M St) (k : St -> M St) (k' : St -> M St),
             (forall x, k x = k' x) -> bind m k = bind m k').
  { intros [t [e|x]] k k' Hk; cbn; [reflexivity|]. rewrite Hk. reflexivity. }
  replace (bind (tell (GetCore (length pre))) (fun _ => body (length pre) core s))
    with (bind ([GetCore (length pre)], inr core) (fun c => body (length pre) c s)).
  2:{ unfold tell. rewrite !bind_value. reflexivity. }
  apply Hstep. intros s'.
  specialize (IH (pre ++ [core]) s').
  rewrite <- app_assoc in IH. cbn [app] in IH.
  rewrite length_app in IH. cbn [length] in IH.
  rewrite Nat.add_1_r in IH. exact IH.
Qed.

Lemma for_each_range (kron_a : TensorTrain) {St : Type}
    (body : nat -> Core -> St -> M St) (s : St) :
  for_each (range (ndims kron_a))
    (fun core_idx s => core <- get_core (tt_cores kron_a) core_idx ;; body core_idx core s) s
  = for_cores (tt_cores kron_a) 0 body s.
Proof. exact (for_each_range_cores body (tt_cores kron_a) [] s). Qed.

End Loops.

(* ===================================================================== *)
(** * The structure validator *)
(* ===================================================================== *)

Lemma fold_left_max (xs : list nat) (x : nat) :
  fold_left Nat.max xs x = Nat.max x (list_max xs).
Proof.
  revert x. induction xs as [|y xs IH]; intros x.
  - cbn [fold_left]. change (list_max []) with 0. lia.
  - cbn [fold_left]. rewrite IH.
    change (list_max (y :: xs)) with (Nat.max y (list_max xs)). lia.
Qed.

Lemma py_max_list_max (xs : list nat) :
  xs <> [] -> py_max xs = ret (list_max xs).
Proof.
  destruct xs as [|x xs]; [congruence|]. intros _.
  unfold py_max. rewrite fold_left_max. reflexivity.
Qed.

(** Positive numbers whose maximum is 1 are all 1. *)
Lemma list_max_one_positive (xs : list nat) :
  forallb (fun r => 0 <? r) xs = true -> list_max xs = 1 -> Forall (eq 1) xs.
Proof.
  intros Hpos Hmax. rewrite forallb_forall in Hpos.
  apply Forall_forall. intros r Hr.
  assert (Hle : list_max xs <= 1) by lia.
  rewrite list_max_le in Hle. rewrite Forall_forall in Hle.
  specialize (Hle r Hr). specialize (Hpos r Hr).
  apply Nat.ltb_lt in Hpos. lia.
Qed.

Lemma list_max_all_one (xs : list nat) :
  xs <> [] -> Forall (eq 1) xs -> list_max xs = 1.
Proof.
  intros Hne Hall. destruct xs as [|x xs]; [congruence|].
  apply Nat.le_antisymm.
  - apply list_max_le. eapply Forall_impl; [|exact Hall]. cbn. intros; lia.
  - inversion Hall; subst.
    change (list_max (1 :: xs)) with (Nat.max 1 (list_max xs)). lia.
Qed.

Section Validator.

Context {B : Backend}.

(** The validator never touches a core and raises only on an empty rank
    sequence. *)
Lemma _is_kron_run (tt_a : TensorTrain) :
  tt_ranks tt_a <> [] ->
  _is_kron tt_a = ret (is_tt_matrix tt_a && (list_max (tt_ranks tt_a) =? 1)).
Proof.
  intros Hne. unfold _is_kron, get_tt_ranks.
  destruct (is_tt_matrix tt_a); [|reflexivity].
  rewrite py_max_list_max by assumption. rewrite bind_ret. reflexivity.
Qed.

Lemma linked_nonempty (cores : list Core) (ranks : list nat) :
  linked cores ranks = true -> ranks <> [].
Proof. destruct cores, ranks; cbn; congruence. Qed.

Lemma linked_length (cores : list Core) :
  forall ranks, linked cores ranks = true -> length ranks = length cores + 1.
Proof.
  induction cores as [|core cores IH]; intros ranks H.
  - destruct ranks as [|r [|r' ranks]]; cbn in H; try discriminate. reflexivity.
  - destruct ranks as [|r [|r' ranks]]; cbn in H; try discriminate.
    apply andb_prop in H. destruct H as [_ H].
    apply IH in H. cbn in *. lia.
Qed.

Lemma wf_tt_ranks_nonempty (tt_a : TensorTrain) :
  wf_tt tt_a = true -> tt_ranks tt_a <> [].
Proof.
  unfold wf_tt. intros H.
  apply andb_prop in H. destruct H as [H _].
  apply andb_prop in H. destruct H as [_ H].
  eapply linked_nonempty; eassumption.
Qed.

(** Cores bracketed by ranks that are all 1 have rank dimensions 1. *)
Lemma linked_all_one (cores : list Core) :
  forall ranks, linked cores ranks = true -> Forall (eq 1) ranks ->
    Forall (fun core => dim0 core = 1 /\ dim3 core = 1) cores.
Proof.
  induction cores as [|core cores IH]; intros ranks H Hone; [constructor|].
  destruct ranks as [|r [|r' ranks]]; cbn in H; try discriminate.
  apply andb_prop in H. destruct H as [H Hl].
  apply andb_prop in H. destruct H as [H0 H3].
  apply Nat.eqb_eq in H0, H3.
  inversion Hone as [|? ? Hr Hone']; subst.
  inversion Hone' as [|? ? Hr' _]; subst.
  constructor; [split; congruence|].
  eapply IH; eassumption.
Qed.

(** A well-formed core with rank dimensions 1 is its factor with the two
    unit dimensions added. *)
Lemma wf_core_rank_one (core : Core) :
  wf_core core = true -> dim0 core = 1 -> dim3 core = 1 ->
  exists m, core = expand_dims2 m /\ 0 < fst (mshape m) /\ 0 < snd (mshape m).
Proof.
  destruct core as [d0 d1 d2 d3 data]. unfold wf_core. cbn.
  intros H -> ->.
  repeat (apply andb_prop in H; destruct H as [H ?]).
  destruct data as [|row [|row' data]]; cbn in *; try discriminate.
  repeat match goal with
         | H : _ && _ = true |- _ => apply andb_prop in H; destruct H
         end.
  destruct row as [|m [|m' row]]; cbn in *; try discriminate.
  repeat match goal with
         | H : _ && _ = true |- _ => apply andb_prop in H; destruct H
         end.
  repeat match goal with
         | H : (_ =? _) = true |- _ => apply Nat.eqb_eq in H
         | H : (_ <? _) = true |- _ => apply Nat.ltb_lt in H
         end.
  exists m. unfold expand_dims2. subst. split; [reflexivity|].
  split.
  - destruct (fst (mshape m)); [discriminate|lia].
  - destruct (snd (mshape m)); [discriminate|lia].
Qed.

End Validator.

(* ===================================================================== *)
(** * The shape of a valid Kronecker input *)
(* ===================================================================== *)

Section ValidInputs.

Context {B : Backend}.

Lemma factor_of_expand (m : Matrix) : factor_of (expand_dims2 m) = [m].
Proof. reflexivity. Qed.

Lemma factors_of_expanded (fs : list Matrix) :
  flat_map factor_of (map expand_dims2 fs) = fs.
Proof.
  induction fs as [|m fs IH]; [reflexivity|].
  cbn [map flat_map]. rewrite factor_of_expand, IH. reflexivity.
Qed.

Lemma _is_kron_true (tt_a : TensorTrain) :
  tt_ranks tt_a <> [] -> _is_kron tt_a = ret true ->
  is_tt_matrix tt_a = true /\ list_max (tt_ranks tt_a) = 1.
Proof.
  intros Hne H. rewrite _is_kron_run in H by assumption.
  unfold ret in H. injection H as H.
  apply andb_prop in H. destruct H as [Hm Hr].
  apply Nat.eqb_eq in Hr. split; assumption.
Qed.

Lemma expanded_cores (cores : list Core) :
  Forall (fun core => exists m, core = expand_dims2 m /\
                      snd (mshape m) = side m /\ 0 < side m) cores ->
  cores = map expand_dims2 (flat_map factor_of cores) /\
  square_factors (flat_map factor_of cores).
Proof.
  induction 1 as [|core cores (m & -> & Hm) _ [IHc IHs]].
  - split; [reflexivity|constructor].
  - cbn [flat_map]. rewrite factor_of_expand. cbn [app map]. split.
    + f_equal. exact IHc.
    + constructor; assumption.
Qed.

(** A valid Kronecker input is determined by its factors: each core is a
    square factor of positive side with the two unit rank dimensions added,
    and every linking rank is 1. *)
Lemma valid_kron_shape (kron_a : TensorTrain) :
  valid_kron kron_a ->
  tt_cores kron_a = map expand_dims2 (factors kron_a) /\
  square_factors (factors kron_a) /\
  is_tt_matrix kron_a = true /\
  tt_ranks kron_a = repeat 1 (length (tt_cores kron_a) + 1).
Proof.
  intros (Hwf & Hkron & Hsq).
  pose proof (wf_tt_ranks_nonempty _ Hwf) as Hne.
  destruct (_is_kron_true _ Hne Hkron) as [Hmat Hmax].
  unfold wf_tt in Hwf.
  apply andb_prop in Hwf. destruct Hwf as [Hwf Hpos].
  apply andb_prop in Hwf. destruct Hwf as [Hcores Hlinked].
  pose proof (list_max_one_positive _ Hpos Hmax) as Hone.
  pose proof (linked_all_one _ _ Hlinked Hone) as Hrk.
  unfold all_square in Hsq. unfold factors.
  assert (Hall : Forall (fun core => exists m, core = expand_dims2 m /\
                            snd (mshape m) = side m /\ 0 < side m)
                        (tt_cores kron_a)).
  { rewrite forallb_forall in Hcores, Hsq. rewrite Forall_forall in Hrk.
    apply Forall_forall. intros core Hin.
    destruct (Hrk core Hin) as [H0 H3].
    destruct (wf_core_rank_one core (Hcores core Hin) H0 H3) as (m & -> & Hp & _).
    specialize (Hsq _ Hin). cbn in Hsq. apply Nat.eqb_eq in Hsq.
    exists m. unfold side. repeat split; [symmetry|]; assumption. }
  destruct (expanded_cores _ Hall) as [Hc Hs].
  repeat split; try assumption.
  pose proof (linked_length _ _ Hlinked) as Hlen.
  rewrite <- Hlen. clear - Hone.
  induction Hone as [|r ranks <- _ IH]; [reflexivity|].
  cbn [length repeat]. f_equal. exact IH.
Qed.

Lemma valid_kron_ndims (kron_a : TensorTrain) :
  valid_kron kron_a -> length (factors kron_a) = length (tt_cores kron_a).
Proof.
  intros H. destruct (valid_kron_shape _ H) as (Hc & _).
  rewrite <- (length_map expand_dims2 (factors kron_a)), <- Hc. reflexivity.
Qed.

End ValidInputs.

(* ===================================================================== *)
(** * The passes over the cores *)
(* ===================================================================== *)

Section Passes.

Context {B : Backend}.

(** One step of a loop over the cores whose body succeeds. *)
Lemma for_cores_step {St : Type} (core : Core) (cores : list Core) (i : nat)
    (body : nat -> Core -> St -> M St) (s s' : St) (t : list event) :
  body i core s = (t, inr s') ->
  for_cores (core :: cores) i body s
  = (GetCore i :: t ++ trace (for_cores cores (S i) body s'),
     result (for_cores cores (S i) body s')).
Proof.
  intros Hb. cbn [for_cores]. unfold tell.
  rewrite (bind_value [GetCore i] tt). rewrite Hb. cbn [trace result fst snd].
  rewrite bind_value. reflexivity.
Qed.

(** One step of a loop over the cores whose body raises. *)
Lemma for_cores_stop {St : Type} (core : Core) (cores : list Core) (i : nat)
    (body : nat -> Core -> St -> M St) (s : St) (t : list event) (e : exn) :
  body i core s = (t, inl e) ->
  for_cores (core :: cores) i body s = (GetCore i :: t, inl e).
Proof.
  intros Hb. cbn [for_cores]. unfold tell.
  rewrite (bind_value [GetCore i] tt). rewrite Hb. reflexivity.
Qed.

(** The squareness pass fetches the cores up to the first one that is not
    square and raises there, or fetches them all and returns the product of
    their side lengths. It invokes no primitive. *)
Lemma square_loop_run (cores : list Core) :
  forall (i pows : nat),
    for_cores cores i
      (fun _ core pows =>
         if negb (dim1 core =? dim2 core) then raise (ValueError msg_square)
         else ret (pows * dim1 core)) pows
    = match first_non_square cores with
      | Some j => (map GetCore (seq i (S j)), inl (ValueError msg_square))
      | None => (map GetCore (seq i (length cores)),
                 inr (fold_left (fun p core => p * dim1 core) cores pows))
      end.
Proof.
  induction cores as [|core cores IH]; intros i pows; [reflexivity|].
  cbn [first_non_square].
  destruct (dim1 core =? dim2 core) eqn:Hsq.
  - erewrite for_cores_step by (rewrite Hsq; reflexivity).
    rewrite IH. destruct (first_non_square cores) as [j|]; reflexivity.
  - erewrite for_cores_stop by (rewrite Hsq; reflexivity). reflexivity.
Qed.

Lemma square_pass_run (kron_a : TensorTrain) :
  square_pass kron_a
  = match first_non_square (tt_cores kron_a) with
    | Some j => (map GetCore (seq 0 (S j)), inl (ValueError msg_square))
    | None => (map GetCore (seq 0 (ndims kron_a)),
               inr (fold_left (fun p core => p * dim1 core) (tt_cores kron_a) 1))
    end.
Proof.
  unfold square_pass.
  rewrite (for_each_range kron_a
             (fun _ core pows =>
                if negb (dim1 core =? dim2 core) then raise (ValueError msg_square)
                else ret (pows * dim1 core))).
  apply square_loop_run.
Qed.

(** The body of the second pass on the core of a factor of positive side:
    the primitive is invoked, then the exact division gives the exponent. *)
Lemma scalar_body_run (step : Scalar -> Scalar -> nat -> Scalar) (pows : nat)
    (m : Matrix) (i : nat) (acc : Scalar) :
  0 < side m ->
  (m0 <- slice00 (expand_dims2 m) ;;
   d <- call MatrixDeterminant i (Some (tf_matrix_determinant m0)) ;;
   e <- py_div pows (dim1 (expand_dims2 m)) ;;
   ret (step acc d e))
  = ([Call MatrixDeterminant i],
     inr (step acc (tf_matrix_determinant m) (pows / side m))).
Proof.
  intros Hm. unfold slice00, expand_dims2, call, tell, py_div, side in *.
  cbn [core_data dim1].
  destruct (fst (mshape m) =? 0) eqn:Hz.
  - apply Nat.eqb_eq in Hz. lia.
  - reflexivity.
Qed.

(** The second pass of [determinant] and [log_determinant] over the cores of
    factors of positive side: [step] folds the determinant of each factor
    and its exponent [pows / side] into the accumulator. *)
Lemma scalar_loop_run (step : Scalar -> Scalar -> nat -> Scalar) (pows : nat)
    (fs : list Matrix) :
  Forall (fun m => 0 < side m) fs ->
  forall (i : nat) (acc : Scalar),
    for_cores (map expand_dims2 fs) i
      (fun core_idx core acc =>
         m <- slice00 core ;;
         d <- call MatrixDeterminant core_idx (Some (tf_matrix_determinant m)) ;;
         e <- py_div pows (dim1 core) ;;
         ret (step acc d e)) acc
    = (scalar_pass_trace i (length fs),
       inr (fold_left (fun acc m => step acc (tf_matrix_determinant m) (pows / side m))
                      fs acc)).
Proof.
  induction 1 as [|m fs Hm _ IH]; intros i acc; [reflexivity|].
  cbn [map].
  rewrite (for_cores_step _ _ _ _ _ _ _ (scalar_body_run step pows m i acc Hm)).
  rewrite IH. reflexivity.
Qed.

(** On the cores of square factors the first pass computes N. *)
Lemma pows_kron_size (fs : list Matrix) (pows : nat) :
  fold_left (fun p core => p * dim1 core) (map expand_dims2 fs) pows
  = pows * kron_size fs.
Proof.
  revert pows. induction fs as [|m fs IH]; intros pows.
  - cbn. lia.
  - cbn [map fold_left]. rewrite IH. unfold kron_size, expand_dims2, side.
    cbn [dim1 map fold_right]. lia.
Qed.

Lemma first_non_square_expanded (fs : list Matrix) :
  square_factors fs -> first_non_square (map expand_dims2 fs) = None.
Proof.
  induction 1 as [|m fs [Hm _] _ IH]; [reflexivity|].
  cbn [map first_non_square]. unfold expand_dims2 at 1 2. cbn [dim1 dim2].
  fold (side m). rewrite Hm, Nat.eqb_refl, IH. reflexivity.
Qed.

Lemma square_factors_positive (fs : list Matrix) :
  square_factors fs -> Forall (fun m => 0 < side m) fs.
Proof. apply Forall_impl. intros m [_ H]. exact H. Qed.

End Passes.

(* ===================================================================== *)
(** * Runs of the scalar operations on valid inputs *)
(* ===================================================================== *)

Section ScalarRuns.

Context {B : Backend}.

Lemma fold_left_mapped {X Y : Type} (op : Y -> Y -> Y) (g : X -> Y) (xs : list X) :
  forall acc, fold_left (fun acc x => op acc (g x)) xs acc = fold_left op (map g xs) acc.
Proof. induction xs as [|x xs IH]; intros acc; [reflexivity|]. cbn. apply IH. Qed.

(** The two passes of [determinant] and [log_determinant] on a valid
    input, for any way [step] of folding a factor into the accumulator. *)
Lemma two_pass_run (step : Scalar -> Scalar -> nat -> Scalar) (init : Scalar)
    (kron_a : TensorTrain) :
  valid_kron kron_a ->
  (pows <- square_pass kron_a ;;
   for_each (range (ndims kron_a))
     (fun core_idx acc =>
        core <- get_core (tt_cores kron_a) core_idx ;;
        m <- slice00 core ;;
        d <- call MatrixDeterminant core_idx (Some (tf_matrix_determinant m)) ;;
        e <- py_div pows (dim1 core) ;;
        ret (step acc d e)) init)
  = (scalar_run_trace (ndims kron_a),
     inr (fold_left (fun acc m => step acc (tf_matrix_determinant m)
                                       (exponent (factors kron_a) m))
                    (factors kron_a) init)).
Proof.
  intros Hv. destruct (valid_kron_shape _ Hv) as (Hc & Hs & _ & _).
  rewrite square_pass_run. unfold ndims, range.
  set (fs := factors kron_a) in *. rewrite Hc. clearbody fs.
  rewrite (first_non_square_expanded _ Hs).
  rewrite pows_kron_size, Nat.mul_1_l, bind_value.
  pose proof (for_each_range_cores
                (fun core_idx core acc =>
                   m <- slice00 core ;;
                   d <- call MatrixDeterminant core_idx (Some (tf_matrix_determinant m)) ;;
                   e <- py_div (kron_size fs) (dim1 core) ;;
                   ret (step acc d e))
                (map expand_dims2 fs) [] init) as Hloop.
  cbn [length app] in Hloop. cbn [trace result fst snd]. rewrite Hloop.
  rewrite (scalar_loop_run step _ _ (square_factors_positive _ Hs)).
  cbn [trace result fst snd]. unfold scalar_run_trace.
  rewrite length_map. reflexivity.
Qed.

Lemma determinant_run (kron_a : TensorTrain) :
  valid_kron kron_a ->
  determinant kron_a
  = (scalar_run_trace (ndims kron_a), inr (kron_det (factors kron_a))).
Proof.
  intros Hv. pose proof Hv as (_ & Hk & _).
  unfold determinant. rewrite Hk, bind_ret. cbn [negb].
  rewrite (two_pass_run (fun acc d e => tf_mul acc (tf_pow d e)) (of_int 1) _ Hv).
  unfold kron_det, product.
  rewrite (fold_left_mapped tf_mul
             (fun m => tf_pow (tf_matrix_determinant m) (exponent (factors kron_a) m))).
  reflexivity.
Qed.

Lemma log_determinant_run (kron_a : TensorTrain) :
  valid_kron kron_a ->
  log_determinant kron_a
  = (scalar_run_trace (ndims kron_a), inr (kron_logdet (factors kron_a))).
Proof.
  intros Hv. pose proof Hv as (_ & Hk & _).
  unfold log_determinant. rewrite Hk, bind_ret. cbn [negb].
  rewrite (two_pass_run (fun acc d e => tf_add acc (tf_mul (tf_log d) (of_int e)))
             (of_int 0) _ Hv).
  unfold kron_logdet, total.
  rewrite (fold_left_mapped tf_add
             (fun m => tf_mul (tf_log (tf_matrix_determinant m))
                              (of_int (exponent (factors kron_a) m)))).
  reflexivity.
Qed.

End ScalarRuns.

(* ===================================================================== *)
(** * Runs of the pass of [inv] and [cholesky] *)
(* ===================================================================== *)

Section TransformRuns.

Context {B : Backend}.

Variable p : prim.
Variable f : Matrix -> option Matrix.

Lemma transform_pass_cores (kron_a : TensorTrain) :
  transform_pass p f kron_a = for_cores (tt_cores kron_a) 0 (transform_body p f) [].
Proof. exact (for_each_range kron_a (transform_body p f) []). Qed.

(** The body on a square core: the slice is taken, the primitive invoked. *)
Lemma transform_body_square (i : nat) (core : Core) (acc : list Core) :
  (dim1 core =? dim2 core) = true ->
  (exists m m', slice00 core = ret m /\ f m = Some m' /\
     (transform_body p f) i core acc = ([Call p i], inr (acc ++ [expand_dims2 m']))) \/
  (exists m, slice00 core = ret m /\ f m = None /\
     (transform_body p f) i core acc = ([Call p i], inl (NumericFailure p))) \/
  (slice00 core = raise SliceError /\
     (transform_body p f) i core acc = ([], inl SliceError)).
Proof.
  intros Hsq. unfold transform_body. rewrite Hsq. cbn [negb].
  unfold slice00. destruct (core_data core) as [|[|m row] rows].
  - right. right. split; reflexivity.
  - right. right. split; reflexivity.
  - rewrite bind_ret. unfold call, tell. destruct (f m) as [m'|] eqn:Hf.
    + left. exists m, m'. repeat split; assumption.
    + right. left. exists m. repeat split; assumption.
Qed.

Lemma transform_body_non_square (i : nat) (core : Core) (acc : list Core) :
  (dim1 core =? dim2 core) = false ->
  (transform_body p f) i core acc = ([], inl (ValueError msg_square)).
Proof. intros Hsq. unfold transform_body. rewrite Hsq. reflexivity. Qed.

(** On the cores of factors the primitive accepts, the pass invokes the
    primitive once per core, in order, and appends the transformed cores. *)
Lemma transform_loop_run (fs : list Matrix) :
  square_factors fs ->
  forall (fs' : list Matrix), map_option f fs = Some fs' ->
  forall (i : nat) (acc : list Core),
    for_cores (map expand_dims2 fs) i (transform_body p f) acc
    = (flat_map (fun j => [GetCore j; Call p j]) (seq i (length fs)),
       inr (acc ++ map expand_dims2 fs')).
Proof.
  induction 1 as [|m fs [Hm _] _ IH]; intros fs' Hf i acc.
  - cbn in Hf. injection Hf as <-. cbn. rewrite app_nil_r. reflexivity.
  - cbn [map_option] in Hf.
    destruct (f m) as [m'|] eqn:Hfm; [|discriminate].
    destruct (map_option f fs) as [r|] eqn:Hr; [|discriminate].
    injection Hf as <-. cbn [map].
    assert (Hb : (transform_body p f) i (expand_dims2 m) acc
                 = ([Call p i], inr (acc ++ [expand_dims2 m']))).
    { unfold transform_body, expand_dims2 at 1 2. cbn [dim1 dim2].
      fold (side m). rewrite Hm, Nat.eqb_refl. cbn [negb].
      unfold slice00, expand_dims2. cbn [core_data].
      rewrite bind_ret. unfold call, tell. rewrite Hfm. reflexivity. }
    rewrite (for_cores_step _ _ _ _ _ _ _ Hb).
    rewrite (IH r eq_refl). cbn [trace result fst snd length seq flat_map app].
    rewrite <- app_assoc. reflexivity.
Qed.

(** When the primitive rejects a factor, the pass stops there with the
    numeric failure. *)
Lemma transform_loop_failure (fs : list Matrix) :
  square_factors fs -> map_option f fs = None ->
  forall (i : nat) (acc : list Core),
    result (for_cores (map expand_dims2 fs) i (transform_body p f) acc)
    = inl (NumericFailure p).
Proof.
  induction 1 as [|m fs [Hm _] _ IH]; intros Hf i acc; [discriminate|].
  cbn [map_option] in Hf. cbn [map].
  assert (Hsq : (dim1 (expand_dims2 m) =? dim2 (expand_dims2 m)) = true).
  { unfold expand_dims2. cbn [dim1 dim2]. fold (side m).
    rewrite Hm. apply Nat.eqb_refl. }
  destruct (transform_body_square i (expand_dims2 m) acc Hsq)
    as [(m0 & m' & Hs & Hfm & Hb) | [(m0 & Hs & Hfm & Hb) | (Hs & _)]].
  - injection Hs as <-. rewrite Hfm in Hf.
    destruct (map_option f fs) eqn:Hr; [discriminate|].
    rewrite (for_cores_step _ _ _ _ _ _ _ Hb). cbn [result snd].
    apply IH. reflexivity.
  - rewrite (for_cores_stop _ _ _ _ _ _ _ Hb). reflexivity.
  - discriminate Hs.
Qed.

(** When some core is not square, the pass ends in an error. It has then
    invoked the primitive on the first [n] cores only, all of which precede
    the first core that is not square; when the primitive accepts every
    factor before that core, [n] is its index and the error is the
    structural one. *)
Lemma transform_loop_non_square (cores : list Core) :
  forall (i : nat) (acc : list Core) (j : nat),
    first_non_square cores = Some j ->
    exists (t : list event) (e : exn) (n : nat),
      for_cores cores i (transform_body p f) acc = (t, inl e) /\
      n <= j /\
      calls t = map (Call p) (seq i n) /\
      (Forall (transformable f) (firstn j cores) ->
       e = ValueError msg_square /\ n = j).
Proof.
  induction cores as [|core cores IH]; intros i acc j Hj; [discriminate|].
  cbn [first_non_square] in Hj.
  destruct (dim1 core =? dim2 core) eqn:Hsq.
  - destruct (first_non_square cores) as [j'|] eqn:Hj'; [|discriminate].
    cbn in Hj. injection Hj as <-.
    destruct (transform_body_square i core acc Hsq)
      as [(m & m' & Hs & Hf & Hb) | [(m & Hs & Hf & Hb) | (Hs & Hb)]].
    + destruct (IH (S i) (acc ++ [expand_dims2 m']) j' eq_refl)
        as (t & e & n & Hrun & Hn & Hcalls & Hgood).
      exists (GetCore i :: [Call p i] ++ t), e, (S n).
      rewrite (for_cores_step _ _ _ _ _ _ _ Hb), Hrun.
      repeat split.
      * lia.
      * cbn. f_equal. exact Hcalls.
      * cbn [firstn] in H. inversion H; subst. apply Hgood. assumption.
      * cbn [firstn] in H. inversion H; subst. f_equal.
        apply Hgood. assumption.
    + exists [GetCore i; Call p i], (NumericFailure p), 1.
      rewrite (for_cores_stop _ _ _ _ _ _ _ Hb).
      repeat split; try reflexivity; try lia;
        cbn [firstn] in H; inversion H as [|? ? (m0 & m0' & Hs0 & Hf0) _]; subst;
        rewrite Hs in Hs0; injection Hs0 as <-; congruence.
    + exists [GetCore i], SliceError, 0.
      rewrite (for_cores_stop _ _ _ _ _ _ _ Hb).
      repeat split; try reflexivity; try lia;
        cbn [firstn] in H; inversion H as [|? ? (m0 & m0' & Hs0 & Hf0) _]; subst;
        rewrite Hs in Hs0; discriminate.
  - injection Hj as <-.
    exists [GetCore i], (ValueError msg_square), 0.
    rewrite (for_cores_stop _ _ _ _ _ _ _ (transform_body_non_square i core acc Hsq)).
    repeat split; reflexivity.
Qed.

End TransformRuns.

(* ===================================================================== *)
(** * Runs of [inv] and [cholesky] *)
(* ===================================================================== *)

Section RebuildRuns.

Context {B : Backend}.

Lemma inv_rebuild (kron_a : TensorTrain) :
  inv kron_a = rebuild_with MatrixInverse tf_matrix_inverse msg_ranks kron_a.
Proof. reflexivity. Qed.

Lemma cholesky_rebuild (kron_a : TensorTrain) :
  cholesky kron_a = rebuild_with Cholesky tf_cholesky msg_kron kron_a.
Proof. reflexivity. Qed.

Lemma rebuild_run (p : prim) (f : Matrix -> option Matrix) (msg : string)
    (kron_a : TensorTrain) (fs' : list Matrix) :
  valid_kron kron_a ->
  map_option f (factors kron_a) = Some fs' ->
  rebuild_with p f msg kron_a
  = (rebuild_trace p (ndims kron_a), inr (rebuilt kron_a fs')).
Proof.
  intros Hv Hf. pose proof Hv as (_ & Hk & _).
  destruct (valid_kron_shape _ Hv) as (Hc & Hs & _ & _).
  unfold rebuild_with. rewrite Hk, bind_ret. cbn [negb].
  rewrite transform_pass_cores. unfold rebuilt, ndims, get_raw_shape, rebuild_trace.
  set (fs := factors kron_a) in *. rewrite Hc. clearbody fs.
  rewrite (transform_loop_run p f fs Hs fs' Hf 0 []).
  rewrite bind_value. cbn [trace result fst snd app].
  rewrite app_nil_r, length_map. reflexivity.
Qed.

Lemma rebuild_failure (p : prim) (f : Matrix -> option Matrix) (msg : string)
    (kron_a : TensorTrain) :
  valid_kron kron_a ->
  map_option f (factors kron_a) = None ->
  result (rebuild_with p f msg kron_a) = inl (NumericFailure p).
Proof.
  intros Hv Hf. pose proof Hv as (_ & Hk & _).
  destruct (valid_kron_shape _ Hv) as (Hc & Hs & _ & _).
  unfold rebuild_with. rewrite Hk, bind_ret. cbn [negb].
  rewrite transform_pass_cores.
  set (fs := factors kron_a) in *. rewrite Hc. clearbody fs.
  pose proof (transform_loop_failure p f fs Hs Hf 0 []) as Hfail.
  rewrite (run_eta (for_cores _ _ _ _)), Hfail. reflexivity.
Qed.

(** On a valid input neither operation ends in a structural error. *)
Lemma rebuild_not_structural (p : prim) (f : Matrix -> option Matrix) (msg : string)
    (kron_a : TensorTrain) :
  valid_kron kron_a -> raises_structural (rebuild_with p f msg kron_a) = false.
Proof.
  intros Hv. unfold raises_structural.
  destruct (map_option f (factors kron_a)) as [fs'|] eqn:Hf.
  - rewrite (rebuild_run p f msg _ _ Hv Hf). reflexivity.
  - rewrite (rebuild_failure p f msg _ Hv Hf). reflexivity.
Qed.

(** With a core that is not square, a run that passes the validator ends in
    an error after invoking the primitive on cores before that one only. *)
Lemma rebuild_non_square (p : prim) (f : Matrix -> option Matrix) (msg : string)
    (kron_a : TensorTrain) (j : nat) :
  _is_kron kron_a = ret true ->
  first_non_square (tt_cores kron_a) = Some j ->
  exists (e : exn) (n : nat),
    result (rebuild_with p f msg kron_a) = inl e /\
    n <= j /\
    calls (trace (rebuild_with p f msg kron_a)) = map (Call p) (seq 0 n) /\
    (Forall (transformable f) (firstn j (tt_cores kron_a)) ->
     e = ValueError msg_square /\ n = j).
Proof.
  intros Hk Hj. unfold rebuild_with. rewrite Hk, bind_ret. cbn [negb].
  rewrite transform_pass_cores.
  destruct (transform_loop_non_square p f _ 0 [] j Hj)
    as (t & e & n & Hrun & Hn & Hcalls & Hgood).
  rewrite Hrun. exists e, n. repeat split; try assumption; apply Hgood; assumption.
Qed.

End RebuildRuns.

(* ===================================================================== *)
(** * [inv] and [cholesky] on the store *)
(* ===================================================================== *)

Section StoreRuns.

Context {B : Backend}.

Lemma nth_old (h : store) (xs : list Core) (l : nat) :
  l < length h -> nth l (h ++ [xs]) [] = nth l h [].
Proof. intros Hl. apply app_nth1, Hl. Qed.

Lemma nth_new (h : store) (xs : list Core) : nth (length h) (h ++ [xs]) [] = xs.
Proof. rewrite app_nth2, Nat.sub_diag by lia. reflexivity. Qed.

Lemma set_nth_new (h : store) (xs ys : list Core) :
  set_nth (length h) ys (h ++ [xs]) = h ++ [ys].
Proof. induction h as [|zs h IH]; cbn; [reflexivity|]. f_equal. exact IH. Qed.

Variable p : prim.
Variable f : Matrix -> option Matrix.

(** One iteration on the store does what the body of the loop does on
    values, and writes the list under construction only. *)
Lemma store_body_run (h : store) (src : nat) (acc : list Core)
    (core : Core) (i : nat) :
  src < length h ->
  get_core (nth src h []) i = ([GetCore i], inr core) ->
  store_body p f src (length h) i (h ++ [acc])
  = match transform_body p f i core acc with
    | (t, inr acc') => (h ++ [acc'], (GetCore i :: t, inr tt))
    | (t, inl e) => (h ++ [acc], (GetCore i :: t, inl e))
    end.
Proof.
  intros Hsrc Hget.
  unfold store_body, list_item, sread, sbind.
  rewrite nth_old by assumption. rewrite Hget.
  unfold transform_body.
  destruct (dim1 core =? dim2 core); cbn [negb]; [|reflexivity].
  unfold slift, slice00.
  destruct (core_data core) as [|[|m row] rows]; try reflexivity.
  unfold call, tell, list_append, bind, ret, raise.
  destruct (f m) as [m'|]; [|reflexivity].
  cbn [app]. rewrite nth_new, set_nth_new. reflexivity.
Qed.

(** The loop on the store follows the loop on values: same events, same
    outcome, and the store differs at the list under construction only. *)
Lemma store_loop_run (h : store) (src : nat) :
  src < length h ->
  forall (post pre acc : list Core),
    nth src h [] = pre ++ post ->
    exists acc' : list Core,
      match for_cores post (length pre) (transform_body p f) acc with
      | (t, inr new_cores) =>
          acc' = new_cores /\
          sfor (seq (length pre) (length post)) (store_body p f src (length h)) (h ++ [acc])
          = (h ++ [acc'], (t, inr tt))
      | (t, inl e) =>
          sfor (seq (length pre) (length post)) (store_body p f src (length h)) (h ++ [acc])
          = (h ++ [acc'], (t, inl e))
      end.
Proof.
  intros Hsrc. induction post as [|core post IH]; intros pre acc Hcores.
  - exists acc. cbn. split; reflexivity.
  - assert (Hget : get_core (nth src h []) (length pre)
                   = ([GetCore (length pre)], inr core)).
    { rewrite Hcores. apply get_core_at. }
    pose proof (store_body_run h src acc core (length pre) Hsrc Hget) as Hbody.
    cbn [length seq sfor for_cores].
    unfold tell. rewrite (bind_value [GetCore (length pre)] tt).
    cbn [trace result fst snd].
    destruct (transform_body p f (length pre) core acc) as [t [e|acc1]] eqn:Hb.
    + exists acc. cbn. unfold sbind. rewrite Hbody. reflexivity.
    + specialize (IH (pre ++ [core]) acc1).
      rewrite <- app_assoc in IH. specialize (IH Hcores).
      rewrite length_app in IH. cbn [length] in IH. rewrite Nat.add_1_r in IH.
      destruct IH as [acc' IH]. exists acc'.
      cbn [trace result fst snd]. rewrite bind_value.
      destruct (for_cores post (S (length pre)) (transform_body p f) acc1)
        as [t' [e|new_cores]]; cbn [trace result fst snd].
      * unfold sbind. rewrite Hbody, IH. reflexivity.
      * destruct IH as [-> IH]. unfold sbind. rewrite Hbody, IH.
        split; reflexivity.
Qed.

(** [rebuild_in_store] refines [rebuild_with]: the events and the outcome
    are those of the run on the value the object stands for; the store is
    extended, never changed at an address it had; and a returned object
    holds the new address, at which the new cores are. *)
Lemma rebuild_in_store_run (msg : string) (h : store) (kron_a : TensorTrainObject) :
  cores_ref kron_a < length h ->
  exists ext : store,
    match rebuild_with p f msg (deref h kron_a) with
    | (t, inr out) =>
        rebuild_in_store p f msg kron_a h
        = (h ++ [tt_cores out],
           (t, inr (mkObject (length h) (raw_shape out) (tt_ranks out))))
    | (t, inl e) =>
        rebuild_in_store p f msg kron_a h = (h ++ ext, (t, inl e))
    end.
Proof.
  intros Hsrc. unfold rebuild_with, rebuild_in_store.
  unfold sbind, sread, sret, new_list, slift.
  destruct (_is_kron (deref h kron_a)) as [t0 [e|ok]] eqn:Hk.
  - exists []. rewrite app_nil_r. reflexivity.
  - assert (Ht0 : t0 = []).
    { unfold _is_kron in Hk. destruct (is_tt_matrix _).
      - unfold py_max in Hk. destruct (get_tt_ranks _).
        + rewrite bind_raise in Hk. unfold raise in Hk. congruence.
        + rewrite bind_ret in Hk. unfold ret in Hk. congruence.
      - unfold ret in Hk. congruence. }
    subst t0. rewrite (bind_value [] ok). cbn [app].
    destruct ok; cbn [negb].
    2:{ exists []. rewrite app_nil_r. reflexivity. }
    rewrite transform_pass_cores.
    destruct (store_loop_run h (cores_ref kron_a) Hsrc
                (nth (cores_ref kron_a) h []) [] [] eq_refl) as [acc' Hloop].
    cbn [length] in Hloop.
    unfold ndims, range, ret. cbn [deref tt_cores].
    rewrite nth_old by assumption.
    destruct (for_cores (nth (cores_ref kron_a) h []) 0 (transform_body p f) [])
      as [t [e|new_cores]] eqn:Hpure.
    + exists [acc']. rewrite Hloop. reflexivity.
    + exists []. destruct Hloop as [-> Hloop]. rewrite Hloop.
      cbn [bind app trace result fst snd get_raw_shape deref raw_shape tt_ranks tt_cores].
      rewrite !app_nil_r. reflexivity.
Qed.

(** Whatever the outcome, the lists the store held before the run are
    what they were. *)
Lemma rebuild_in_store_frame (msg : string) (h : store) (kron_a : TensorTrainObject)
    (l : nat) :
  cores_ref kron_a < length h -> l < length h ->
  nth l (fst (rebuild_in_store p f msg kron_a h)) [] = nth l h [].
Proof.
  intros Hsrc Hl. destruct (rebuild_in_store_run msg h kron_a Hsrc) as [ext Hrun].
  destruct (rebuild_with p f msg (deref h kron_a)) as [t [e|out]];
    rewrite Hrun; cbn [fst]; apply app_nth1, Hl.
Qed.

End StoreRuns.

(* ===================================================================== *)
(** * Properties of the module *)
(* ===================================================================== *)

Section Properties.

Context {B : Backend}.

(** C1. On a value that passes the structure validator and whose cores are
    all square, [determinant] returns the product over the factors of
    det(factor) ^ (N / side), where N is the product of the side lengths.
    (The factors of a value are matrices of positive side: [wf_tt].) *)
Theorem determinant_kronecker_identity (kron_a : TensorTrain) :
  wf_tt kron_a = true ->
  _is_kron kron_a = ret true ->
  all_square kron_a = true ->
  result (determinant kron_a)
  = inr (product (map (fun m => tf_pow (tf_matrix_determinant m)
                                       (kron_size (factors kron_a) / side m))
                      (factors kron_a))).
Proof.
  intros Hwf Hk Hsq.
  rewrite (determinant_run kron_a (conj Hwf (conj Hk Hsq))). reflexivity.
Qed.

(** A rank sequence with an entry other than 1 has a maximum other than 1,
    when the ranks are positive. *)
Lemma list_max_not_one (ranks : list nat) :
  forallb (fun r => 0 <? r) ranks = true ->
  Exists (fun r => r <> 1) ranks -> list_max ranks <> 1.
Proof.
  intros Hpos Hex Hmax.
  pose proof (list_max_one_positive _ Hpos Hmax) as Hone.
  rewrite Forall_forall in Hone. rewrite Exists_exists in Hex.
  destruct Hex as (r & Hin & Hr). apply Hr. symmetry. apply Hone, Hin.
Qed.

(** The four operations on a value the validator rejects: the error is
    raised at once. *)
Lemma rejected_runs (kron_a : TensorTrain) :
  _is_kron kron_a = ret false ->
  determinant kron_a = ([], inl (ValueError msg_ranks)) /\
  log_determinant kron_a = ([], inl (ValueError msg_ranks)) /\
  inv kron_a = ([], inl (ValueError msg_ranks)) /\
  cholesky kron_a = ([], inl (ValueError msg_kron)).
Proof.
  intros Hk. unfold determinant, log_determinant, inv, cholesky.
  rewrite Hk, !bind_ret. cbn [negb]. repeat split; reflexivity.
Qed.

(** C3. A factored value that is not tagged as a matrix, or whose linking
    ranks are not all 1, makes each of the four operations raise the
    structural-validation error with no event recorded: no core is fetched
    and no primitive invoked. (Linking ranks are positive.) *)
Theorem non_kronecker_rejected_untouched (kron_a : TensorTrain) :
  Forall (fun r => 0 < r) (tt_ranks kron_a) ->
  is_tt_matrix kron_a = false \/ Exists (fun r => r <> 1) (tt_ranks kron_a) ->
  (trace (determinant kron_a) = [] /\ raises_structural (determinant kron_a) = true) /\
  (trace (log_determinant kron_a) = [] /\ raises_structural (log_determinant kron_a) = true) /\
  (trace (inv kron_a) = [] /\ raises_structural (inv kron_a) = true) /\
  (trace (cholesky kron_a) = [] /\ raises_structural (cholesky kron_a) = true).
Proof.
  intros Hpos Hbad.
  assert (Hk : _is_kron kron_a = ret false).
  { destruct Hbad as [Hm | Hex].
    - unfold _is_kron. rewrite Hm. reflexivity.
    - assert (Hne : tt_ranks kron_a <> []) by (intros E; rewrite E in Hex; inversion Hex).
      rewrite _is_kron_run by assumption. f_equal.
      assert (Hposb : forallb (fun r => 0 <? r) (tt_ranks kron_a) = true).
      { apply forallb_forall. rewrite Forall_forall in Hpos.
        intros r Hr. apply Nat.ltb_lt, Hpos, Hr. }
      pose proof (list_max_not_one _ Hposb Hex) as Hmax.
      apply Nat.eqb_neq in Hmax. rewrite Hmax. apply andb_false_r. }
  destruct (rejected_runs _ Hk) as (-> & -> & -> & ->).
  repeat split; reflexivity.
Qed.

(** C6. The structure validator is a total, pure predicate: it performs no
    event, returns a boolean, and that boolean is true exactly when the
    value is tagged as a matrix and the maximum of its linking ranks is 1.
    (A factored value of [k] cores has [k+1] linking ranks, so the sequence
    is not empty.) *)
Theorem is_kron_total_pure_predicate (tt_a : TensorTrain) :
  tt_ranks tt_a <> [] ->
  exists b : bool,
    _is_kron tt_a = ([], inr b) /\
    (b = true <-> is_tt_matrix tt_a = true /\ list_max (tt_ranks tt_a) = 1).
Proof.
  intros Hne. rewrite _is_kron_run by assumption.
  eexists. split; [reflexivity|].
  rewrite andb_true_iff, Nat.eqb_eq. reflexivity.
Qed.

Lemma map_option_Forall2 {X Y : Type} (f : X -> option Y) (xs : list X) :
  forall ys, map_option f xs = Some ys <-> Forall2 (fun x y => f x = Some y) xs ys.
Proof.
  induction xs as [|x xs IH]; intros ys; cbn [map_option].
  - split.
    + intros H. injection H as <-. constructor.
    + intros H. inversion H. reflexivity.
  - split.
    + destruct (f x) as [y|] eqn:Hx; [|discriminate].
      destruct (map_option f xs) as [r|]; [|discriminate].
      intros H. injection H as <-. constructor; [assumption|]. apply IH. reflexivity.
    + intros H. inversion H as [|? y ? r Hx Hr]; subst.
      rewrite Hx. apply IH in Hr. rewrite Hr. reflexivity.
Qed.

Lemma calls_get_cores (l : list nat) : calls (map GetCore l) = [].
Proof. induction l as [|i l IH]; [reflexivity|exact IH]. Qed.

(** C2, as the code has it. Let core [j] be the first core that is not
    square, on an input that passes the validator. [determinant] and
    [log_determinant] raise the structural error having fetched the cores
    [0 .. j] and invoked no primitive. [inv] and [cholesky] check and
    transform core by core: they never return a value, they invoke their
    primitive on the first [n <= j] cores only, and when the primitive
    accepts each factor before core [j] they invoke it on all [j] of them
    and then raise the structural error. *)
Theorem non_square_core_rejected (kron_a : TensorTrain) (j : nat) :
  _is_kron kron_a = ret true ->
  first_non_square (tt_cores kron_a) = Some j ->
  (determinant kron_a = (map GetCore (seq 0 (S j)), inl (ValueError msg_square)) /\
   fails_before_decomposition (determinant kron_a)) /\
  (log_determinant kron_a = (map GetCore (seq 0 (S j)), inl (ValueError msg_square)) /\
   fails_before_decomposition (log_determinant kron_a)) /\
  (exists (e : exn) (n : nat),
     result (inv kron_a) = inl e /\ n <= j /\
     calls (trace (inv kron_a)) = map (Call MatrixInverse) (seq 0 n) /\
     (Forall (transformable tf_matrix_inverse) (firstn j (tt_cores kron_a)) ->
      e = ValueError msg_square /\ n = j)) /\
  (exists (e : exn) (n : nat),
     result (cholesky kron_a) = inl e /\ n <= j /\
     calls (trace (cholesky kron_a)) = map (Call Cholesky) (seq 0 n) /\
     (Forall (transformable tf_cholesky) (firstn j (tt_cores kron_a)) ->
      e = ValueError msg_square /\ n = j)).
Proof.
  intros Hk Hj.
  assert (Hdet : determinant kron_a
                 = (map GetCore (seq 0 (S j)), inl (ValueError msg_square))).
  { unfold determinant. rewrite Hk, bind_ret. cbn [negb].
    rewrite square_pass_run, Hj. reflexivity. }
  assert (Hlog : log_determinant kron_a
                 = (map GetCore (seq 0 (S j)), inl (ValueError msg_square))).
  { unfold log_determinant. rewrite Hk, bind_ret. cbn [negb].
    rewrite square_pass_run, Hj. reflexivity. }
  split; [|split; [|split]].
  - split; [exact Hdet|]. rewrite Hdet. split; [reflexivity|].
    apply calls_get_cores.
  - split; [exact Hlog|]. rewrite Hlog. split; [reflexivity|].
    apply calls_get_cores.
  - rewrite inv_rebuild. apply rebuild_non_square; assumption.
  - rewrite cholesky_rebuild. apply rebuild_non_square; assumption.
Qed.

(** C5. Let the object [kron_a] stand in the store [h] for a valid Kronecker
    input with square factors. When the primitive accepts every factor,
    [inv] (and likewise [cholesky]) returns the value built from the
    transformed factors in the same order, with the shape descriptor of the
    input and [k+1] linking ranks, all 1; on the store, the new cores are a
    new list at a fresh address, which the returned object holds. Whatever
    the outcome, every list the store held before the run, the cores of the
    input among them, is unchanged. *)
Theorem inv_cholesky_rebuild_factorwise (h : store) (kron_a : TensorTrainObject) :
  cores_ref kron_a < length h ->
  wf_tt (deref h kron_a) = true ->
  _is_kron (deref h kron_a) = ret true ->
  all_square (deref h kron_a) = true ->
  let k := ndims (deref h kron_a) in
  (forall fs' : list Matrix,
     Forall2 (fun m m' => tf_matrix_inverse m = Some m') (factors (deref h kron_a)) fs' ->
     result (inv (deref h kron_a))
     = inr (mkTensorTrain (map expand_dims2 fs') (object_shape kron_a)
                          (repeat 1 (k + 1))) /\
     inv_in_store kron_a h
     = (h ++ [map expand_dims2 fs'],
        (rebuild_trace MatrixInverse k,
         inr (mkObject (length h) (object_shape kron_a) (repeat 1 (k + 1)))))) /\
  (forall fs' : list Matrix,
     Forall2 (fun m m' => tf_cholesky m = Some m') (factors (deref h kron_a)) fs' ->
     result (cholesky (deref h kron_a))
     = inr (mkTensorTrain (map expand_dims2 fs') (object_shape kron_a)
                          (repeat 1 (k + 1))) /\
     cholesky_in_store kron_a h
     = (h ++ [map expand_dims2 fs'],
        (rebuild_trace Cholesky k,
         inr (mkObject (length h) (object_shape kron_a) (repeat 1 (k + 1)))))) /\
  (forall l : nat, l < length h ->
     nth l (fst (inv_in_store kron_a h)) [] = nth l h [] /\
     nth l (fst (cholesky_in_store kron_a h)) [] = nth l h []).
Proof.
  intros Hsrc Hwf Hk Hsq k.
  assert (Hv : valid_kron (deref h kron_a)) by (repeat split; assumption).
  split; [|split].
  - intros fs' Hf. apply map_option_Forall2 in Hf.
    pose proof (rebuild_run MatrixInverse tf_matrix_inverse msg_ranks _ _ Hv Hf) as Hrun.
    split; [rewrite inv_rebuild, Hrun; reflexivity|].
    destruct (rebuild_in_store_run MatrixInverse tf_matrix_inverse msg_ranks
                h kron_a Hsrc) as [ext Hst].
    rewrite Hrun in Hst. exact Hst.
  - intros fs' Hf. apply map_option_Forall2 in Hf.
    pose proof (rebuild_run Cholesky tf_cholesky msg_kron _ _ Hv Hf) as Hrun.
    split; [rewrite cholesky_rebuild, Hrun; reflexivity|].
    destruct (rebuild_in_store_run Cholesky tf_cholesky msg_kron
                h kron_a Hsrc) as [ext Hst].
    rewrite Hrun in Hst. exact Hst.
  - intros l Hl. split; apply rebuild_in_store_frame; assumption.
Qed.

End Properties.

(* ===================================================================== *)
(** * The value rebuilt by [inv] and [cholesky] *)
(* ===================================================================== *)

Section Rebuilt.

Context {B : Backend}.

Lemma linked_expanded (fs : list Matrix) :
  linked (map expand_dims2 fs) (repeat 1 (length fs + 1)) = true.
Proof.
  induction fs as [|m fs IH]; [reflexivity|].
  cbn [map length Nat.add repeat]. destruct (length fs + 1) eqn:Hn; [lia|].
  cbn [repeat] in *. cbn [linked expand_dims2 dim0 dim3 Nat.eqb andb].
  exact IH.
Qed.

Lemma repeat_one_all (n : nat) : Forall (eq 1) (repeat 1 n).
Proof. induction n; cbn; constructor; auto. Qed.

Lemma repeat_one_positive (n : nat) : forallb (fun r => 0 <? r) (repeat 1 n) = true.
Proof. induction n; [reflexivity|exact IHn]. Qed.

Lemma list_max_repeat_one (n : nat) : list_max (repeat 1 (n + 1)) = 1.
Proof.
  apply list_max_all_one; [|apply repeat_one_all].
  rewrite Nat.add_1_r. discriminate.
Qed.

Lemma wf_expanded (fs : list Matrix) :
  square_factors fs -> forallb wf_core (map expand_dims2 fs) = true.
Proof.
  induction 1 as [|m fs [Hsq Hpos] _ IH]; [reflexivity|].
  cbn [map forallb]. rewrite IH, andb_true_r.
  unfold wf_core, expand_dims2. cbn [dim0 dim1 dim2 dim3 core_data length forallb].
  unfold side in *. rewrite !Nat.eqb_refl, !andb_true_r.
  apply andb_true_intro. split; apply Nat.ltb_lt; lia.
Qed.

Lemma all_square_expanded (fs : list Matrix) :
  square_factors fs ->
  forallb (fun core => dim1 core =? dim2 core) (map expand_dims2 fs) = true.
Proof.
  induction 1 as [|m fs [Hsq _] _ IH]; [reflexivity|].
  cbn [map forallb]. rewrite IH, andb_true_r.
  unfold expand_dims2, side in *. cbn [dim1 dim2]. rewrite Hsq. apply Nat.eqb_refl.
Qed.

(** A value assembled with the shape descriptor of a matrix passes the
    structure validator, whatever its cores. *)
Lemma rebuilt_is_kron (kron_a : TensorTrain) (fs' : list Matrix) :
  is_tt_matrix kron_a = true -> _is_kron (rebuilt kron_a fs') = ret true.
Proof.
  intros Hmat. rewrite _is_kron_run.
  - unfold rebuilt at 2. cbn [tt_ranks]. rewrite list_max_repeat_one.
    unfold is_tt_matrix, rebuilt in *. cbn [raw_shape]. rewrite Hmat. reflexivity.
  - unfold rebuilt. cbn [tt_ranks]. rewrite Nat.add_1_r. discriminate.
Qed.

(** A value assembled from square factors of positive side, with the shape
    descriptor of a matrix, is a valid Kronecker input. *)
Lemma rebuilt_valid (kron_a : TensorTrain) (fs' : list Matrix) :
  is_tt_matrix kron_a = true ->
  length fs' = length (tt_cores kron_a) ->
  square_factors fs' ->
  valid_kron (rebuilt kron_a fs').
Proof.
  intros Hmat Hlen Hs. unfold valid_kron. repeat split.
  - unfold wf_tt, rebuilt. cbn [tt_cores tt_ranks].
    rewrite (wf_expanded _ Hs), <- Hlen, linked_expanded, repeat_one_positive.
    reflexivity.
  - apply rebuilt_is_kron, Hmat.
  - unfold all_square, rebuilt. cbn [tt_cores]. apply all_square_expanded, Hs.
Qed.

(** Transforming square factors with a primitive that keeps the shape gives
    as many square factors. *)
Lemma transformed_square (f : Matrix -> option Matrix) (fs : list Matrix) :
  (forall m m', f m = Some m' -> mshape m' = mshape m) ->
  square_factors fs ->
  forall fs', map_option f fs = Some fs' ->
    length fs' = length fs /\ square_factors fs'.
Proof.
  intros Hshape. induction 1 as [|m fs [Hsq Hpos] _ IH]; intros fs' Hf.
  - cbn in Hf. injection Hf as <-. split; [reflexivity|constructor].
  - cbn [map_option] in Hf.
    destruct (f m) as [m'|] eqn:Hm; [|discriminate].
    destruct (map_option f fs) as [r|]; [|discriminate].
    injection Hf as <-. destruct (IH r eq_refl) as [Hlen Hr].
    split; [cbn; f_equal; exact Hlen|].
    constructor; [|exact Hr].
    unfold side in *. rewrite (Hshape _ _ Hm). split; assumption.
Qed.

(** The four operations on a valid input do not end in a structural error. *)
Lemma valid_not_structural (kron_a : TensorTrain) :
  valid_kron kron_a ->
  raises_structural (determinant kron_a) = false /\
  raises_structural (log_determinant kron_a) = false /\
  raises_structural (inv kron_a) = false /\
  raises_structural (cholesky kron_a) = false.
Proof.
  intros Hv. repeat split.
  - rewrite (determinant_run _ Hv). reflexivity.
  - rewrite (log_determinant_run _ Hv). reflexivity.
  - rewrite inv_rebuild. apply rebuild_not_structural, Hv.
  - rewrite cholesky_rebuild. apply rebuild_not_structural, Hv.
Qed.

(** What [inv] or [cholesky] returns on a valid input is a valid input,
    when the primitive keeps the static shape of its argument. *)
Lemma rebuild_with_valid (p : prim) (f : Matrix -> option Matrix) (msg : string)
    (kron_a out : TensorTrain) :
  (forall m m', f m = Some m' -> mshape m' = mshape m) ->
  valid_kron kron_a ->
  result (rebuild_with p f msg kron_a) = inr out ->
  valid_kron out.
Proof.
  intros Hshape Hv Hout.
  destruct (valid_kron_shape _ Hv) as (Hc & Hs & Hmat & _).
  destruct (map_option f (factors kron_a)) as [fs'|] eqn:Hf.
  - rewrite (rebuild_run p f msg _ _ Hv Hf) in Hout. cbn in Hout.
    injection Hout as <-.
    destruct (transformed_square f _ Hshape Hs _ Hf) as [Hlen Hs'].
    apply rebuilt_valid; [assumption| |assumption].
    rewrite Hlen. apply valid_kron_ndims, Hv.
  - rewrite (rebuild_failure p f msg _ Hv Hf) in Hout. discriminate.
Qed.

End Rebuilt.

Section OutputsAreInputs.

Context {B : Backend}.

(** C10. What [inv] or [cholesky] returns on a valid input passes the
    structure validator: it is tagged as a matrix and its linking ranks are
    all 1. When the dense inverse and the Cholesky factor of a matrix have
    the static shape of the matrix, none of the four operations raises the
    structural-validation error on it. *)
Theorem rebuilt_output_is_acceptable_input (kron_a out : TensorTrain) :
  wf_tt kron_a = true ->
  _is_kron kron_a = ret true ->
  all_square kron_a = true ->
  result (inv kron_a) = inr out \/ result (cholesky kron_a) = inr out ->
  (_is_kron out = ret true /\
   is_tt_matrix out = true /\
   tt_ranks out = repeat 1 (ndims kron_a + 1)) /\
  ((forall m m', tf_matrix_inverse m = Some m' -> mshape m' = mshape m) ->
   (forall m m', tf_cholesky m = Some m' -> mshape m' = mshape m) ->
   raises_structural (determinant out) = false /\
   raises_structural (log_determinant out) = false /\
   raises_structural (inv out) = false /\
   raises_structural (cholesky out) = false).
Proof.
  intros Hwf Hk Hsq Hout.
  assert (Hv : valid_kron kron_a) by (repeat split; assumption).
  destruct (valid_kron_shape _ Hv) as (_ & _ & Hmat & _).
  split.
  - assert (Hform : exists fs', out = rebuilt kron_a fs').
    { destruct Hout as [Hout | Hout];
        [rewrite inv_rebuild in Hout | rewrite cholesky_rebuild in Hout];
        match type of Hout with
        | result (rebuild_with ?p ?f ?msg _) = _ =>
            destruct (map_option f (factors kron_a)) as [fs'|] eqn:Hf;
            [ rewrite (rebuild_run p f msg _ _ Hv Hf) in Hout; cbn in Hout;
              injection Hout as <-; exists fs'; reflexivity
            | rewrite (rebuild_failure p f msg _ Hv Hf) in Hout; discriminate ]
        end. }
    destruct Hform as [fs' ->]. split; [apply rebuilt_is_kron, Hmat|].
    split; [exact Hmat|reflexivity].
  - intros inverse_shape cholesky_shape.
    apply valid_not_structural.
    destruct Hout as [Hout | Hout].
    + rewrite inv_rebuild in Hout.
      exact (rebuild_with_valid _ _ _ _ _ inverse_shape Hv Hout).
    + rewrite cholesky_rebuild in Hout.
      exact (rebuild_with_valid _ _ _ _ _ cholesky_shape Hv Hout).
Qed.

End OutputsAreInputs.

(* ===================================================================== *)
(** * Scalar laws and the scalar results *)
(* ===================================================================== *)

Section SingleFactor.

Context {B : Backend}.

(** Units of the scalar arithmetic. *)
Hypothesis mul_one_l : forall x, tf_mul (of_int 1) x = x.
Hypothesis mul_one_r : forall x, tf_mul x (of_int 1) = x.
Hypothesis add_zero_l : forall x, tf_add (of_int 0) x = x.
Hypothesis pow_one : forall x, tf_pow x 1 = x.


End SingleFactor.

Section LogConsistency.

Context {B : Backend}.

(** The laws of the logarithm on the scalars that are strictly positive. *)
Variable positive : Scalar -> Prop.
Hypothesis positive_one : positive (of_int 1).
Hypothesis positive_mul : forall x y, positive x -> positive y -> positive (tf_mul x y).
Hypothesis positive_pow : forall x n, positive x -> positive (tf_pow x n).
Hypothesis log_one : tf_log (of_int 1) = of_int 0.
Hypothesis log_mul :
  forall x y, positive x -> positive y ->
    tf_log (tf_mul x y) = tf_add (tf_log x) (tf_log y).
Hypothesis log_pow :
  forall x n, positive x -> tf_log (tf_pow x n) = tf_mul (tf_log x) (of_int n).

(** The logarithm of the running product is the running sum of the
    logarithms, factor by factor. *)
Lemma log_of_product (g : Matrix -> nat) (fs : list Matrix) :
  Forall (fun m => positive (tf_matrix_determinant m)) fs ->
  forall acc, positive acc ->
    tf_log (fold_left tf_mul
              (map (fun m => tf_pow (tf_matrix_determinant m) (g m)) fs) acc)
    = fold_left tf_add
        (map (fun m => tf_mul (tf_log (tf_matrix_determinant m)) (of_int (g m))) fs)
        (tf_log acc).
Proof.
  induction 1 as [|m fs Hm _ IH]; intros acc Hacc; [reflexivity|].
  cbn [map fold_left].
  rewrite IH by (apply positive_mul; [assumption|apply positive_pow, Hm]).
  rewrite log_mul by (try assumption; apply positive_pow, Hm).
  rewrite log_pow by assumption. reflexivity.
Qed.

(** Under these laws the sum of the scaled logarithms is the logarithm of
    the product of the powers. *)
Lemma kron_logdet_log_kron_det (fs : list Matrix) :
  Forall (fun m => positive (tf_matrix_determinant m)) fs ->
  kron_logdet fs = tf_log (kron_det fs).
Proof.
  intros Hpos. unfold kron_det, kron_logdet, product, total.
  rewrite (log_of_product _ _ Hpos _ positive_one), log_one. reflexivity.
Qed.

End LogConsistency.

Section LogDeterminant.

Context {B : Backend}.

(** C4, as the code has it. On a valid Kronecker input with square factors,
    [log_determinant] returns the sum, accumulated from 0 in the order of
    the factors, of log(det(factor_i)) * (N / side(i)), and [determinant]
    the product, accumulated from 1, of det(factor_i) ^ (N / side(i)), with
    no law assumed of the scalars. When the factor determinants are
    strictly positive and the arithmetic of the scalars is exact (the
    positive scalars contain 1 and are closed under product and power, and
    on them log 1 = 0, log (x y) = log x + log y and
    log (x ^ n) = log x * n), that sum is the logarithm of the value
    [determinant] returns. *)
Theorem log_determinant_sum_of_logs (kron_a : TensorTrain) :
  wf_tt kron_a = true ->
  _is_kron kron_a = ret true ->
  all_square kron_a = true ->
  result (log_determinant kron_a) = inr (kron_logdet (factors kron_a)) /\
  result (determinant kron_a) = inr (kron_det (factors kron_a)) /\
  forall positive : Scalar -> Prop,
    positive (of_int 1) ->
    (forall x y, positive x -> positive y -> positive (tf_mul x y)) ->
    (forall x n, positive x -> positive (tf_pow x n)) ->
    tf_log (of_int 1) = of_int 0 ->
    (forall x y, positive x -> positive y ->
       tf_log (tf_mul x y) = tf_add (tf_log x) (tf_log y)) ->
    (forall x n, positive x -> tf_log (tf_pow x n) = tf_mul (tf_log x) (of_int n)) ->
    Forall (fun m => positive (tf_matrix_determinant m)) (factors kron_a) ->
    kron_logdet (factors kron_a) = tf_log (kron_det (factors kron_a)).
Proof.
  intros Hwf Hk Hsq.
  assert (Hv : valid_kron kron_a) by (repeat split; assumption).
  rewrite (determinant_run _ Hv), (log_determinant_run _ Hv).
  split; [reflexivity|]. split; [reflexivity|].
  intros positive Hone Hmul Hpow Hlog_one Hlog_mul Hlog_pow Hpos.
  exact (kron_logdet_log_kron_det positive Hone Hmul Hpow Hlog_one Hlog_mul Hlog_pow
           _ Hpos).
Qed.

End LogDeterminant.

Section OrderIndependence.

Context {B : Backend}.

(** Multiplication and addition of scalars are commutative and associative. *)
Hypothesis mul_comm : forall x y, tf_mul x y = tf_mul y x.
Hypothesis mul_assoc : forall x y z, tf_mul x (tf_mul y z) = tf_mul (tf_mul x y) z.
Hypothesis add_comm : forall x y, tf_add x y = tf_add y x.
Hypothesis add_assoc : forall x y z, tf_add x (tf_add y z) = tf_add (tf_add x y) z.

(** A left fold with a commutative, associative operation does not depend
    on the order of the list. *)
Lemma fold_left_permutation {X : Type} (op : X -> X -> X) :
  (forall x y, op x y = op y x) ->
  (forall x y z, op x (op y z) = op (op x y) z) ->
  forall l l', Permutation l l' -> forall acc, fold_left op l acc = fold_left op l' acc.
Proof.
  intros Hcomm Hassoc l l' Hp.
  induction Hp as [|x l l' _ IH|x y l|l l' l'' _ IH1 _ IH2]; intros acc.
  - reflexivity.
  - cbn. apply IH.
  - cbn. f_equal. rewrite <- !Hassoc. f_equal. apply Hcomm.
  - rewrite IH1. apply IH2.
Qed.

Lemma kron_size_permutation (fs fs' : list Matrix) :
  Permutation fs fs' -> kron_size fs = kron_size fs'.
Proof.
  unfold kron_size. induction 1 as [|m l l' _ IH|m m' l|l l' l'' _ IH1 _ IH2].
  - reflexivity.
  - cbn. rewrite IH. reflexivity.
  - cbn. lia.
  - congruence.
Qed.

Lemma factors_permutation (kron_a kron_b : TensorTrain) :
  Permutation (tt_cores kron_a) (tt_cores kron_b) ->
  Permutation (factors kron_a) (factors kron_b).
Proof. unfold factors. apply Permutation_flat_map. Qed.

(** C7, as the code has it. When the multiplication and the addition of the scalars
    are commutative and associative, reordering the cores of a valid
    Kronecker input with square factors leaves the results of
    [determinant] and [log_determinant] unchanged. *)
Theorem scalar_results_order_independent (kron_a kron_b : TensorTrain) :
  valid_kron kron_a ->
  valid_kron kron_b ->
  Permutation (tt_cores kron_a) (tt_cores kron_b) ->
  result (determinant kron_a) = result (determinant kron_b) /\
  result (log_determinant kron_a) = result (log_determinant kron_b).
Proof.
  intros Ha Hb Hp.
  pose proof (factors_permutation _ _ Hp) as Hf.
  pose proof (kron_size_permutation _ _ Hf) as Hn.
  rewrite (determinant_run _ Ha), (determinant_run _ Hb).
  rewrite (log_determinant_run _ Ha), (log_determinant_run _ Hb).
  cbn [result snd]. unfold kron_det, kron_logdet, product, total, exponent.
  rewrite Hn. split; f_equal.
  - apply fold_left_permutation; [exact mul_comm|exact mul_assoc|].
    apply Permutation_map, Hf.
  - apply fold_left_permutation; [exact add_comm|exact add_assoc|].
    apply Permutation_map, Hf.
Qed.

End OrderIndependence.

Section NonPositiveDeterminant.

Context {B : Backend}.

(** The scalars that are zero or negative, and those that are finite. The
    logarithm of the former is not finite, and a product or sum with an
    operand that is not finite is not finite. *)
Variable nonpositive : Scalar -> Prop.
Variable finite : Scalar -> Prop.
Hypothesis log_nonpositive : forall d, nonpositive d -> ~ finite (tf_log d).
Hypothesis mul_nonfinite : forall x y, ~ finite x -> ~ finite (tf_mul x y).
Hypothesis add_nonfinite_l : forall x y, ~ finite x -> ~ finite (tf_add x y).
Hypothesis add_nonfinite_r : forall x y, ~ finite y -> ~ finite (tf_add x y).

Lemma total_nonfinite (xs : list Scalar) :
  forall acc, ~ finite acc \/ Exists (fun x => ~ finite x) xs ->
    ~ finite (fold_left tf_add xs acc).
Proof.
  induction xs as [|x xs IH]; intros acc [Hacc | Hex]; cbn [fold_left].
  - exact Hacc.
  - inversion Hex.
  - apply IH. left. apply add_nonfinite_l, Hacc.
  - apply IH. inversion Hex; subst.
    + left. apply add_nonfinite_r. assumption.
    + right. assumption.
Qed.

(** C8. On a valid Kronecker input with square factors one of which has a
    zero or negative determinant, [log_determinant] raises nothing: it runs
    to the end and returns a value, and that value is not finite. *)
Theorem log_determinant_nonpositive_unchecked (kron_a : TensorTrain) :
  wf_tt kron_a = true ->
  _is_kron kron_a = ret true ->
  all_square kron_a = true ->
  Exists (fun m => nonpositive (tf_matrix_determinant m)) (factors kron_a) ->
  exists v : Scalar,
    log_determinant kron_a = (scalar_run_trace (ndims kron_a), inr v) /\
    ~ finite v.
Proof.
  intros Hwf Hk Hsq Hex.
  assert (Hv : valid_kron kron_a) by (repeat split; assumption).
  exists (kron_logdet (factors kron_a)).
  split; [apply log_determinant_run, Hv|].
  unfold kron_logdet, total. apply total_nonfinite. right.
  apply Exists_exists. apply Exists_exists in Hex.
  destruct Hex as (m & Hin & Hm).
  exists (tf_mul (tf_log (tf_matrix_determinant m))
                 (of_int (exponent (factors kron_a) m))).
  split.
  - apply in_map_iff. exists m. split; [reflexivity|assumption].
  - apply mul_nonfinite, log_nonpositive, Hm.
Qed.

End NonPositiveDeterminant.

(* ===================================================================== *)
(** * The two backends satisfy the laws; the module on concrete inputs *)
(* ===================================================================== *)

Section RationalShapes.

Import Rational.

Lemma q_inverse_shape (m m' : QMatrix) :
  q_inverse m = Some m' -> q_shape m' = q_shape m.
Proof.
  unfold q_inverse. destruct (is_square m) eqn:Hsq; [|discriminate].
  cbn [negb orb]. destruct (Qeq_bool (q_det m) 0); [discriminate|].
  intros H. injection H as <-. unfold q_shape.
  rewrite length_map, length_seq. f_equal.
  destruct m as [|row rows]; [reflexivity|].
  cbn [length seq map]. rewrite length_map, length_seq.
  cbn [is_square forallb] in Hsq. apply andb_prop in Hsq. destruct Hsq as [Hrow _].
  apply Nat.eqb_eq in Hrow. cbn [length] in Hrow. symmetry. exact Hrow.
Qed.

Lemma chol_below_length (a : list Q) (prev : list (list Q)) :
  forall cur, length (chol_below prev a cur) = length cur + length prev.
Proof.
  induction prev as [|lj prev IH]; intros cur; cbn [chol_below length].
  - lia.
  - rewrite IH, length_app. cbn [length]. lia.
Qed.

Lemma chol_rows_shape (n : nat) (rows : list (list Q)) :
  forall prev l, chol_rows n prev rows = Some l ->
    length l = length prev + length rows /\
    (forall row0 prev', prev = row0 :: prev' -> exists l', l = row0 :: l').
Proof.
  induction rows as [|a rows IH]; intros prev l H; cbn [chol_rows] in H.
  - injection H as <-. split; [cbn; lia|].
    intros row0 prev' ->. eexists. reflexivity.
  - destruct (chol_row n prev a) as [r|]; [|discriminate].
    destruct (IH _ _ H) as [Hlen Hhead]. split.
    + rewrite Hlen, length_app. cbn [length]. lia.
    + intros row0 prev' ->. apply (Hhead row0 (prev' ++ [r])). reflexivity.
Qed.

Lemma q_cholesky_shape (m m' : QMatrix) :
  q_cholesky m = Some m' -> q_shape m' = q_shape m.
Proof.
  unfold q_cholesky. destruct (is_square m) eqn:Hsq; [|discriminate].
  destruct m as [|a rows].
  - cbn. intros H. injection H as <-. reflexivity.
  - cbn [chol_rows]. destruct (chol_row _ [] a) as [r|] eqn:Hr; [|discriminate].
    intros H. destruct (chol_rows_shape _ _ _ _ H) as [Hlen Hhead].
    destruct (Hhead r [] eq_refl) as [l' ->].
    unfold q_shape. cbn [length app] in *. f_equal; [lia|].
    unfold chol_row in Hr. cbn [chol_below length] in Hr.
    destruct (q_sqrt _) as [d|]; [|discriminate]. injection Hr as <-.
    cbn [app length]. rewrite repeat_length.
    cbn [is_square forallb] in Hsq. apply andb_prop in Hsq. destruct Hsq as [Hrow _].
    apply Nat.eqb_eq in Hrow. cbn [length] in Hrow. lia.
Qed.

End RationalShapes.

Section ExtendedLaws.

Lemma x_log_nonpositive (d : xreal) : x_nonpositive d -> ~ x_finite (x_log d).
Proof.
  destruct d as [r| | |]; cbn; try tauto.
  intros Hr. destruct (Rlt_dec 0 r); [lra|]. destruct (Rlt_dec r 0); cbn; tauto.
Qed.

Lemma x_mul_nonfinite (x y : xreal) : ~ x_finite x -> ~ x_finite (x_mul x y).
Proof.
  destruct x as [a| | |]; cbn; try tauto; intros _;
    destruct y as [b| | |]; cbn; try tauto;
    destruct (Rlt_dec 0 b); cbn; try tauto; destruct (Rlt_dec b 0); cbn; tauto.
Qed.

Lemma x_add_nonfinite_l (x y : xreal) : ~ x_finite x -> ~ x_finite (x_add x y).
Proof. destruct x, y; cbn; tauto. Qed.

Lemma x_add_nonfinite_r (x y : xreal) : ~ x_finite y -> ~ x_finite (x_add x y).
Proof. destruct x, y; cbn; tauto. Qed.

End ExtendedLaws.

Section ConcreteRuns.

Import Examples.

#[local] Open Scope R_scope.

Lemma det_A_value : Q2R (Rational.q_det mat_A) = 2.
Proof.
  replace (Rational.q_det mat_A) with 2%Q by (vm_compute; reflexivity).
  unfold Q2R. cbn [Qnum Qden]. lra.
Qed.

Lemma det_B_value : Q2R (Rational.q_det mat_B) = 5.
Proof.
  replace (Rational.q_det mat_B) with 5%Q by (vm_compute; reflexivity).
  unfold Q2R. cbn [Qnum Qden]. lra.
Qed.

Lemma det_Z_value : Q2R (Rational.q_det mat_Z) = 0.
Proof.
  replace (Rational.q_det mat_Z) with 0%Q by (vm_compute; reflexivity).
  unfold Q2R. cbn [Qnum Qden]. lra.
Qed.

(** The determinant identity on A (x) B: 2^(6/2) * 5^(6/3) = 200. *)
Lemma determinant_kronecker_identity_witness :
  result (determinant kron_AB) = inr 200.
Proof.
  rewrite (determinant_kronecker_identity (B := RealBackend) kron_AB);
    [|reflexivity|reflexivity|reflexivity].
  f_equal.
  change (factors kron_AB) with [mat_A; mat_B].
  change (kron_size (B := RealBackend) [mat_A; mat_B]) with 6%nat.
  unfold product. cbn [map fold_left].
  change (side (B := RealBackend) mat_A) with 2%nat.
  change (side (B := RealBackend) mat_B) with 3%nat.
  change (6 / 2)%nat with 3%nat. change (6 / 3)%nat with 2%nat.
  cbn [tf_matrix_determinant tf_mul tf_pow of_int RealBackend].
  rewrite det_A_value, det_B_value. cbn [INR pow]. lra.
Defined.

(** The value with linking ranks (1, 2, 1) is rejected by all four
    operations before any core is fetched. *)
Lemma non_kronecker_rejected_untouched_witness :
  (trace (determinant tt_rank2) = [] /\ raises_structural (determinant tt_rank2) = true) /\
  (trace (log_determinant tt_rank2) = [] /\ raises_structural (log_determinant tt_rank2) = true) /\
  (trace (inv tt_rank2) = [] /\ raises_structural (inv tt_rank2) = true) /\
  (trace (cholesky tt_rank2) = [] /\ raises_structural (cholesky tt_rank2) = true).
Proof.
  apply (non_kronecker_rejected_untouched (B := RealBackend) tt_rank2).
  - repeat constructor.
  - right. apply Exists_cons_tl, Exists_cons_hd. discriminate.
Defined.

(** The validator on A (x) B. *)
Lemma is_kron_total_pure_predicate_witness :
  exists b : bool,
    _is_kron kron_AB = ([], inr b) /\
    (b = true <-> is_tt_matrix kron_AB = true /\ list_max (tt_ranks kron_AB) = 1%nat).
Proof.
  apply (is_kron_total_pure_predicate (B := RealBackend) kron_AB).
  discriminate.
Defined.

(** The runs of the four operations on A (x) R, whose second core is 2 x 3. *)
Lemma inv_non_square_run :
  inv kron_AR
  = ([GetCore 0; Call MatrixInverse 0; GetCore 1], inl (ValueError msg_square)).
Proof. reflexivity. Qed.

Lemma cholesky_non_square_run :
  cholesky (kron_of (B := RealBackend) [mat_C; mat_R])
  = ([GetCore 0; Call Cholesky 0; GetCore 1], inl (ValueError msg_square)).
Proof. reflexivity. Qed.

Lemma non_square_core_rejected_witness :
  (determinant kron_AR = ([GetCore 0; GetCore 1], inl (ValueError msg_square)) /\
   fails_before_decomposition (determinant kron_AR)) /\
  (log_determinant kron_AR = ([GetCore 0; GetCore 1], inl (ValueError msg_square)) /\
   fails_before_decomposition (log_determinant kron_AR)) /\
  (exists (e : exn) (n : nat),
     result (inv kron_AR) = inl e /\ (n <= 1)%nat /\
     calls (trace (inv kron_AR)) = map (Call MatrixInverse) (seq 0 n) /\
     (Forall (transformable tf_matrix_inverse) (firstn 1 (tt_cores kron_AR)) ->
      e = ValueError msg_square /\ n = 1%nat)) /\
  (exists (e : exn) (n : nat),
     result (cholesky kron_AR) = inl e /\ (n <= 1)%nat /\
     calls (trace (cholesky kron_AR)) = map (Call Cholesky) (seq 0 n) /\
     (Forall (transformable tf_cholesky) (firstn 1 (tt_cores kron_AR)) ->
      e = ValueError msg_square /\ n = 1%nat)).
Proof.
  apply (non_square_core_rejected (B := RealBackend) kron_AR 1); reflexivity.
Defined.

End ConcreteRuns.

(** C2 fails for [inv]: on A (x) R the inverse of A has been invoked when the
    2 x 3 core is found. *)
Lemma inv_decomposes_before_structural_error :
  ~ fail_fast_on_non_square (B := RealBackend).
Proof.
  intros H.
  destruct (H Examples.kron_AR) as (_ & _ & [_ Hcalls] & _).
  - apply Exists_cons_tl, Exists_cons_hd. cbn. discriminate.
  - rewrite inv_non_square_run in Hcalls. discriminate Hcalls.
Qed.

Section MoreConcreteRuns.

Import Examples.

(** [inv] and [cholesky] on C (x) D, held by a store with one list: the
    store gains the list of the transformed cores and keeps the first. *)
Lemma inv_cholesky_rebuild_factorwise_witness :
  (result (inv kron_CD)
   = inr (mkTensorTrain (B := RealBackend) (map (expand_dims2 (B := RealBackend)) [inv_C; inv_D])
                        (raw_shape kron_CD) [1; 1; 1]) /\
   fst (inv_in_store (B := RealBackend)
          (mkObject 0 (raw_shape kron_CD) (tt_ranks kron_CD)) [tt_cores kron_CD])
   = [tt_cores kron_CD; map (expand_dims2 (B := RealBackend)) [inv_C; inv_D]]) /\
  (result (cholesky kron_CD)
   = inr (mkTensorTrain (B := RealBackend) (map (expand_dims2 (B := RealBackend)) [chol_C; chol_D])
                        (raw_shape kron_CD) [1; 1; 1]) /\
   fst (cholesky_in_store (B := RealBackend)
          (mkObject 0 (raw_shape kron_CD) (tt_ranks kron_CD)) [tt_cores kron_CD])
   = [tt_cores kron_CD; map (expand_dims2 (B := RealBackend)) [chol_C; chol_D]]).
Proof.
  pose proof (inv_cholesky_rebuild_factorwise (B := RealBackend)
                [tt_cores kron_CD]
                (mkObject 0 (raw_shape kron_CD) (tt_ranks kron_CD))
                (Nat.lt_0_succ 0) eq_refl eq_refl eq_refl) as (Hinv & Hchol & _).
  split.
  - destruct (Hinv [inv_C; inv_D]) as [Hres Hst]; [repeat constructor|].
    split; [exact Hres|]. rewrite Hst. reflexivity.
  - destruct (Hchol [chol_C; chol_D]) as [Hres Hst]; [repeat constructor|].
    split; [exact Hres|]. rewrite Hst. reflexivity.
Defined.

(** The inverse of C (x) D is again a valid input of the four operations. *)
Lemma rebuilt_output_is_acceptable_input_witness :
  let out := rebuilt (B := RealBackend) kron_CD [inv_C; inv_D] in
  (_is_kron out = ret true /\
   is_tt_matrix out = true /\
   tt_ranks out = repeat 1 (ndims kron_CD + 1)) /\
  raises_structural (determinant out) = false /\
  raises_structural (log_determinant out) = false /\
  raises_structural (inv out) = false /\
  raises_structural (cholesky out) = false.
Proof.
  intros out.
  destruct (rebuilt_output_is_acceptable_input (B := RealBackend) kron_CD out
              eq_refl eq_refl eq_refl (or_introl eq_refl)) as [Hkron Hops].
  split; [exact Hkron|].
  exact (Hops q_inverse_shape q_cholesky_shape).
Defined.

End MoreConcreteRuns.

Section RealRuns.

Import Examples.

#[local] Open Scope R_scope.


Lemma ln_pow_scaled (x : R) (n : nat) : 0 < x -> ln (x ^ n) = ln x * INR n.
Proof. intros Hx. rewrite ln_pow by assumption. apply Rmult_comm. Qed.

Lemma kron_det_AB_value : kron_det (factors kron_AB) = 200.
Proof.
  change (factors kron_AB) with [mat_A; mat_B].
  unfold kron_det, exponent.
  change (kron_size (B := RealBackend) [mat_A; mat_B]) with 6%nat.
  unfold product. cbn [map fold_left].
  change (side (B := RealBackend) mat_A) with 2%nat.
  change (side (B := RealBackend) mat_B) with 3%nat.
  change (6 / 2)%nat with 3%nat. change (6 / 3)%nat with 2%nat.
  cbn [tf_matrix_determinant tf_mul tf_pow of_int RealBackend].
  rewrite det_A_value, det_B_value. cbn [INR pow]. lra.
Qed.

(** On A (x) B over the reals the determinant is 200 and the
    log-determinant is the logarithm of 200. *)
Lemma log_determinant_sum_of_logs_witness :
  result (log_determinant kron_AB) = inr (ln 200) /\
  result (determinant kron_AB) = inr 200.
Proof.
  destruct (log_determinant_sum_of_logs (B := RealBackend) kron_AB
              eq_refl eq_refl eq_refl) as (Hl & Hd & Hlog).
  rewrite Hl, Hd.
  rewrite (Hlog (fun x : R => 0 < x) Rlt_0_1 Rmult_lt_0_compat
             (fun x n H => pow_lt x n H) ln_1 ln_mult
             (fun x n H => ln_pow_scaled x n H)).
  - rewrite kron_det_AB_value. split; reflexivity.
  - change (factors kron_AB) with [mat_A; mat_B].
    repeat constructor; cbn [tf_matrix_determinant RealBackend].
    + rewrite det_A_value. lra.
    + rewrite det_B_value. lra.
Defined.

Lemma kron_AB_valid : valid_kron kron_AB.
Proof. repeat split. Qed.

Lemma kron_BA_valid : valid_kron kron_BA.
Proof. repeat split. Qed.

(** A (x) B and B (x) A have the same determinant and log-determinant. *)
Lemma scalar_results_order_independent_witness :
  result (determinant kron_AB) = result (determinant kron_BA) /\
  result (log_determinant kron_AB) = result (log_determinant kron_BA).
Proof.
  apply (scalar_results_order_independent (B := RealBackend)
           Rmult_comm (fun x y z => eq_sym (Rmult_assoc x y z))
           Rplus_comm (fun x y z => eq_sym (Rplus_assoc x y z))
           kron_AB kron_BA kron_AB_valid kron_BA_valid).
  apply perm_swap.
Defined.

End RealRuns.

Section ExtendedRuns.

Import Examples.

(** A (x) Z, with det(Z) = 0: the log-determinant is returned and is not
    finite. *)
Lemma log_determinant_nonpositive_unchecked_witness :
  exists v : xreal,
    log_determinant kron_AZ = (scalar_run_trace (ndims kron_AZ), inr v) /\
    ~ x_finite v.
Proof.
  apply (log_determinant_nonpositive_unchecked (B := ExtendedBackend)
           x_nonpositive x_finite x_log_nonpositive x_mul_nonfinite
           x_add_nonfinite_l x_add_nonfinite_r kron_AZ);
    [reflexivity|reflexivity|reflexivity|].
  change (factors kron_AZ) with [mat_A; mat_Z].
  apply Exists_cons_tl, Exists_cons_hd.
  cbn [tf_matrix_determinant ExtendedBackend x_nonpositive].
  rewrite det_Z_value. lra.
Defined.

End ExtendedRuns.

Section DoubleRuns.

Import Examples.

Lemma inr_injective {X Y : Type} (x y : Y) : inr (A := X) x = inr y -> x = y.
Proof. intros H. inversion H. reflexivity. Qed.

(** Two doubles told apart by the equality test are different. *)
Lemma double_neq (x y : PrimFloat.float) :
  PrimFloat.eqb x x = true -> PrimFloat.eqb x y = false -> x <> y.
Proof. intros Hx Hxy Heq. rewrite <- Heq in Hxy. congruence. Qed.

(** Some function on the doubles has the two values asked of the logarithm. *)
Lemma ieee_log_exists : exists log, Double.ieee_log log.
Proof.
  exists (fun x => if PrimFloat.eqb x Double.big then Double.log_big
                   else PrimFloat.infinity).
  split; reflexivity.
Qed.

(** The runs on the value of factors 2^1000, 2^1000: the product overflows,
    the sum of the logarithms does not. *)
Lemma determinant_big2_run (log : PrimFloat.float -> PrimFloat.float) :
  result (determinant (kron_big2 log))
  = inr (A := exn) (B := PrimFloat.float) PrimFloat.infinity.
Proof. reflexivity. Qed.

Lemma log_determinant_big2_run (log : PrimFloat.float -> PrimFloat.float) :
  result (log_determinant (kron_big2 log))
  = inr (A := exn) (B := PrimFloat.float)
        (PrimFloat.add
           (PrimFloat.add (Double.of_nat 0)
                          (PrimFloat.mul (log Double.big) (Double.of_nat 1)))
           (PrimFloat.mul (log Double.big) (Double.of_nat 1))).
Proof. reflexivity. Qed.

(** The runs on the factors 2^1000, 2^1000, 2^-1000 and on the factors
    2^1000, 2^-1000, 2^1000. *)
Lemma determinant_bbs_run (log : PrimFloat.float -> PrimFloat.float) :
  result (determinant (kron_bbs log))
  = inr (A := exn) (B := PrimFloat.float) PrimFloat.infinity.
Proof. reflexivity. Qed.

Lemma determinant_bsb_run (log : PrimFloat.float -> PrimFloat.float) :
  result (determinant (kron_bsb log))
  = inr (A := exn) (B := PrimFloat.float) Double.big.
Proof. reflexivity. Qed.

End DoubleRuns.

(** C4 fails over the doubles, for every logarithm that is plus infinity at
    plus infinity and 693.1471805599453 at 2^1000: on the factors 2^1000,
    2^1000 [determinant] returns plus infinity, whose logarithm is plus
    infinity, and [log_determinant] returns 1386.2943611198907. *)
Lemma log_determinant_finite_where_determinant_overflows :
  ~ exists log : PrimFloat.float -> PrimFloat.float,
      Double.ieee_log log /\
      log_determinant_consistent (B := DoubleBackend log) Double.positive.
Proof.
  intros (log & [Hinf Hbig] & H).
  destruct (H (Examples.kron_big2 log)) as (d & Hd & Hl).
  - repeat split.
  - change (factors (Examples.kron_big2 log)) with [Double.big; Double.big].
    repeat constructor.
  - rewrite determinant_big2_run in Hd. apply inr_injective in Hd. subst d.
    rewrite log_determinant_big2_run in Hl.
    change (tf_log (Backend := DoubleBackend log) PrimFloat.infinity)
      with (log PrimFloat.infinity) in Hl.
    rewrite Hbig, Hinf in Hl. apply inr_injective in Hl.
    symmetry in Hl. revert Hl. apply double_neq; reflexivity.
Qed.

(** C7 fails over the doubles, whatever the logarithm: on the factors
    2^1000, 2^1000, 2^-1000 [determinant] returns plus infinity, and on the
    factors 2^1000, 2^-1000, 2^1000 it returns 2^1000. *)
Lemma determinant_depends_on_factor_order :
  ~ exists log : PrimFloat.float -> PrimFloat.float,
      scalar_results_order_free (B := DoubleBackend log).
Proof.
  intros [log H].
  destruct (H (Examples.kron_bbs log) (Examples.kron_bsb log)) as [Hd _].
  - repeat split.
  - repeat split.
  - apply perm_skip, perm_swap.
  - rewrite determinant_bbs_run, determinant_bsb_run in Hd.
    apply inr_injective in Hd. revert Hd. apply double_neq; reflexivity.
Qed.

(* ===================================================================== *)
(** * Outside the well-formed values *)
(* ===================================================================== *)

(** The properties above are stated for well-formed values: positive
    dimensions, and [k+1] positive linking ranks for [k] cores. The runs
    below record what the module does on shapes the TT format excludes. *)
Section DegenerateShapes.

(** A core of side 0: the product of the sides is 0 and the exponent
    [0 / 0] raises, after the determinant of the empty factor was taken. *)
Example zero_side_divides_by_zero :
  determinant (kron_of (B := RealBackend) [[]])
  = ([GetCore 0; GetCore 0; Call MatrixDeterminant 0], inl ZeroDivisionError).
Proof. reflexivity. Qed.

(** Linking ranks (1, 0, 1): their maximum is 1, so the validator accepts
    the value; its cores have no slice at index 0. *)
Example zero_rank_passes_validator :
  let a := mkTensorTrain (B := RealBackend)
             [mkCore (B := RealBackend) 1 2 2 0 [[]];
              mkCore (B := RealBackend) 0 2 2 1 []]
             (MatrixShape [2; 2] [2; 2]) [1; 0; 1] in
  _is_kron a = ret true /\
  inv a = ([GetCore 0], inl SliceError).
Proof. split; reflexivity. Qed.

(** An empty rank sequence: [max] raises. *)
Example empty_ranks_max_raises :
  _is_kron (mkTensorTrain (B := RealBackend) [] (MatrixShape [] []) [])
  = ([], inl (ValueError "max() arg is an empty sequence")).
Proof. reflexivity. Qed.

End DegenerateShapes.

(* ===================================================================== *)
(** * Further properties: the loops on arbitrary cores *)
(* ===================================================================== *)

Section MonadLaws.

Context {A C D : Type}.

Lemma bind_ext (m : M A) (f g : A -> M C) :
  (forall x, f x = g x) -> bind m f = bind m g.
Proof. intros H. destruct m as [t [e|x]]; cbn; [reflexivity|]. rewrite H. reflexivity. Qed.

Lemma bind_assoc (m : M A) (f : A -> M C) (g : C -> M D) :
  bind (bind m f) g = bind m (fun x => bind (f x) g).
Proof.
  destruct m as [t [e|x]]; [reflexivity|].
  rewrite !bind_value. destruct (f x) as [t' [e|y]]; cbn [trace result fst snd].
  - reflexivity.
  - rewrite !bind_value. cbn [trace result fst snd]. rewrite app_assoc. reflexivity.
Qed.

End MonadLaws.

Section OutcomeFacts.

Lemma same_outcome_bind {A A' C C' : Type} (m : M A) (m' : M A')
    (f : A -> M C) (f' : A' -> M C') :
  same_outcome m m' -> (forall x x', same_outcome (f x) (f' x')) ->
  same_outcome (bind m f) (bind m' f').
Proof.
  destruct m as [t [e|x]], m' as [t' [e'|x']]; unfold same_outcome at 1;
    cbn [trace result fst snd]; intros [Ht Hr] Hf; try contradiction.
  - subst. split; reflexivity.
  - subst. rewrite !bind_value. destruct (Hf x x') as [Ht Hr'].
    split; cbn [trace result fst snd]; [rewrite Ht; reflexivity|exact Hr'].
Qed.

Lemma same_outcome_refl {A : Type} (m : M A) : same_outcome m m.
Proof. split; [reflexivity|]. destruct (result m); reflexivity. Qed.

Lemma same_outcome_bind_same {A C C' : Type} (m : M A)
    (f : A -> M C) (f' : A -> M C') :
  (forall x, same_outcome (f x) (f' x)) ->
  same_outcome (bind m f) (bind m f').
Proof.
  destruct m as [t [e|x]]; intros Hf; [split; reflexivity|].
  rewrite !bind_value. destruct (Hf x) as [Ht Hr].
  split; cbn [trace result fst snd]; [rewrite Ht; reflexivity|exact Hr].
Qed.

End OutcomeFacts.

Section ArbitraryCores.

Context {B : Backend}.

(** A loop over cores laid end to end is the loop over the first, then the
    loop over the second from where the first stopped. *)
Lemma for_cores_app {St : Type} (body : nat -> Core -> St -> M St) (ys : list Core) :
  forall (xs : list Core) (i : nat) (s : St),
    for_cores (xs ++ ys) i body s
    = bind (for_cores xs i body s) (fun s' => for_cores ys (i + length xs) body s').
Proof.
  induction xs as [|x xs IH]; intros i s.
  - cbn [app for_cores length]. rewrite bind_ret, Nat.add_0_r. reflexivity.
  - cbn [app for_cores length].
    etransitivity; [|symmetry; apply bind_assoc].
    apply bind_ext. intros s'.
    rewrite IH. rewrite Nat.add_succ_r. reflexivity.
Qed.

(** Two loops whose bodies end alike, whatever their states, end alike. *)
Lemma for_cores_same_outcome {S1 S2 : Type}
    (body1 : nat -> Core -> S1 -> M S1) (body2 : nat -> Core -> S2 -> M S2) :
  (forall i core s1 s2, same_outcome (body1 i core s1) (body2 i core s2)) ->
  forall (cores : list Core) (i : nat) (s1 : S1) (s2 : S2),
    same_outcome (for_cores cores i body1 s1) (for_cores cores i body2 s2).
Proof.
  intros Hbody. induction cores as [|core cores IH]; intros i s1 s2.
  - split; reflexivity.
  - cbn [for_cores]. apply same_outcome_bind; [|intros x x'; apply IH].
    apply same_outcome_bind; [apply same_outcome_refl|].
    intros _ _. apply Hbody.
Qed.

(** [determinant] and [log_determinant], with their loops by recursion on
    the cores. *)
Lemma determinant_loops (kron_a : TensorTrain) :
  determinant kron_a
  = (ok <- _is_kron kron_a ;;
     if negb ok then raise (ValueError msg_ranks) else
     pows <- square_pass kron_a ;;
     for_cores (tt_cores kron_a) 0 (scalar_body det_step pows) (of_int 1)).
Proof.
  unfold determinant. apply bind_ext. intros ok.
  destruct ok; cbn [negb]; [|reflexivity].
  apply bind_ext. intros pows.
  exact (for_each_range kron_a (scalar_body det_step pows) (of_int 1)).
Qed.

Lemma log_determinant_loops (kron_a : TensorTrain) :
  log_determinant kron_a
  = (ok <- _is_kron kron_a ;;
     if negb ok then raise (ValueError msg_ranks) else
     pows <- square_pass kron_a ;;
     for_cores (tt_cores kron_a) 0 (scalar_body logdet_step pows) (of_int 0)).
Proof.
  unfold log_determinant. apply bind_ext. intros ok.
  destruct ok; cbn [negb]; [|reflexivity].
  apply bind_ext. intros pows.
  exact (for_each_range kron_a (scalar_body logdet_step pows) (of_int 0)).
Qed.

Lemma scalar_body_same_outcome (step1 step2 : Scalar -> Scalar -> nat -> Scalar)
    (pows i : nat) (core : Core) (acc1 acc2 : Scalar) :
  same_outcome (scalar_body step1 pows i core acc1) (scalar_body step2 pows i core acc2).
Proof.
  unfold scalar_body, slice00, same_outcome.
  destruct (core_data core) as [|[|m row] rows]; try (cbn; auto).
  unfold call, tell, py_div. destruct (dim1 core =? 0); cbn; auto.
Qed.

End ArbitraryCores.

(* ===================================================================== *)
(** * Further properties: the two scalar operations run alike *)
(* ===================================================================== *)

Section ParallelRuns.

Context {B : Backend}.

(** X2. On every input [determinant] and [log_determinant] perform the same
    events and end alike: either both return a value, or both raise the
    same exception at the same point. *)
Theorem determinant_log_determinant_same_outcome (kron_a : TensorTrain) :
  same_outcome (determinant kron_a) (log_determinant kron_a).
Proof.
  rewrite determinant_loops, log_determinant_loops.
  apply same_outcome_bind_same. intros ok.
  destruct ok; cbn [negb]; [|apply same_outcome_refl].
  apply same_outcome_bind_same. intros pows.
  apply for_cores_same_outcome. intros i core s1 s2.
  apply scalar_body_same_outcome.
Qed.

End ParallelRuns.

(* ===================================================================== *)
(** * Further properties: failures inside the loops *)
(* ===================================================================== *)

Section LoopFailures.

Context {B : Backend}.

Lemma transform_body_accepts (p : prim) (f : Matrix -> option Matrix)
    (i : nat) (core : Core) (acc : list Core) (m m' : Matrix) :
  dim1 core = dim2 core -> slice00 core = ret m -> f m = Some m' ->
  transform_body p f i core acc = ([Call p i], inr (acc ++ [expand_dims2 m'])).
Proof.
  intros Hsq Hs Hf. unfold transform_body.
  rewrite Hsq, Nat.eqb_refl. cbn [negb]. rewrite Hs, bind_ret.
  unfold call, tell. rewrite Hf. reflexivity.
Qed.

Lemma transform_body_rejects (p : prim) (f : Matrix -> option Matrix)
    (i : nat) (core : Core) (acc : list Core) (m : Matrix) :
  dim1 core = dim2 core -> slice00 core = ret m -> f m = None ->
  transform_body p f i core acc = ([Call p i], inl (NumericFailure p)).
Proof.
  intros Hsq Hs Hf. unfold transform_body.
  rewrite Hsq, Nat.eqb_refl. cbn [negb]. rewrite Hs, bind_ret.
  unfold call, tell. rewrite Hf. reflexivity.
Qed.

(** The loop of [inv] and [cholesky] stops at the first factor its
    primitive rejects, whatever cores come after it. *)
Lemma transform_loop_rejects (p : prim) (f : Matrix -> option Matrix)
    (core : Core) (post : list Core) (m : Matrix) :
  dim1 core = dim2 core -> slice00 core = ret m -> f m = None ->
  forall (pre : list Core) (i : nat) (acc : list Core),
    Forall (fun c => dim1 c = dim2 c /\ transformable f c) pre ->
    for_cores (pre ++ core :: post) i (transform_body p f) acc
    = (flat_map (fun j => [GetCore j; Call p j]) (seq i (S (length pre))),
       inl (NumericFailure p)).
Proof.
  intros Hsq Hs Hf. induction pre as [|c pre IH]; intros i acc Hpre.
  - cbn [app length].
    rewrite (for_cores_stop _ _ _ _ _ _ _
               (transform_body_rejects p f i core acc m Hsq Hs Hf)).
    reflexivity.
  - inversion Hpre as [|? ? [Hc (m0 & m0' & Hs0 & Hf0)] Hpre']; subst.
    cbn [app length].
    rewrite (for_cores_step _ _ _ _ _ _ _
               (transform_body_accepts p f i c acc m0 m0' Hc Hs0 Hf0)).
    rewrite (IH (S i) _ Hpre'). reflexivity.
Qed.

Lemma rebuild_with_rejects (p : prim) (f : Matrix -> option Matrix) (msg : string)
    (kron_a : TensorTrain) (pre : list Core) (core : Core) (post : list Core)
    (m : Matrix) :
  _is_kron kron_a = ret true ->
  tt_cores kron_a = pre ++ core :: post ->
  Forall (fun c => dim1 c = dim2 c /\ transformable f c) pre ->
  dim1 core = dim2 core -> slice00 core = ret m -> f m = None ->
  rebuild_with p f msg kron_a
  = (rebuild_trace p (S (length pre)), inl (NumericFailure p)).
Proof.
  intros Hk Hc Hpre Hsq Hs Hf. unfold rebuild_with.
  rewrite Hk, bind_ret. cbn [negb]. rewrite transform_pass_cores, Hc.
  rewrite (transform_loop_rejects p f core post m Hsq Hs Hf pre 0 [] Hpre).
  reflexivity.
Qed.

(** X3. Let an input pass the validator and let its core [j] be square with
    a factor the primitive rejects, while the cores before it are square
    with factors the primitive accepts. Then [inv] (likewise [cholesky])
    raises the failure of the primitive and returns nothing; it has invoked
    the primitive on the cores [0 .. j], once each, and has not looked at
    the cores after core [j], square or not. *)
Theorem numeric_failure_stops_at_first_rejected (kron_a : TensorTrain)
    (pre : list Core) (core : Core) (post : list Core) (m : Matrix) :
  _is_kron kron_a = ret true ->
  tt_cores kron_a = pre ++ core :: post ->
  dim1 core = dim2 core ->
  slice00 core = ret m ->
  (Forall (fun c => dim1 c = dim2 c /\ transformable tf_matrix_inverse c) pre ->
   tf_matrix_inverse m = None ->
   inv kron_a
   = (flat_map (fun j => [GetCore j; Call MatrixInverse j]) (seq 0 (S (length pre))),
      inl (NumericFailure MatrixInverse))) /\
  (Forall (fun c => dim1 c = dim2 c /\ transformable tf_cholesky c) pre ->
   tf_cholesky m = None ->
   cholesky kron_a
   = (flat_map (fun j => [GetCore j; Call Cholesky j]) (seq 0 (S (length pre))),
      inl (NumericFailure Cholesky))).
Proof.
  intros Hk Hc Hsq Hs. split; intros Hpre Hf.
  - rewrite inv_rebuild. exact (rebuild_with_rejects _ _ _ _ _ _ _ _ Hk Hc Hpre Hsq Hs Hf).
  - rewrite cholesky_rebuild. exact (rebuild_with_rejects _ _ _ _ _ _ _ _ Hk Hc Hpre Hsq Hs Hf).
Qed.

Lemma all_square_first_non_square (kron_a : TensorTrain) :
  all_square kron_a = true -> first_non_square (tt_cores kron_a) = None.
Proof.
  unfold all_square. induction (tt_cores kron_a) as [|core cores IH]; [reflexivity|].
  cbn [forallb first_non_square]. intros H. apply andb_prop in H. destruct H as [Hc H].
  rewrite Hc, (IH H). reflexivity.
Qed.

Lemma scalar_body_accepts (step : Scalar -> Scalar -> nat -> Scalar) (pows i : nat)
    (core : Core) (acc : Scalar) (m : Matrix) :
  slice00 core = ret m -> dim1 core <> 0 ->
  scalar_body step pows i core acc
  = ([Call MatrixDeterminant i],
     inr (step acc (tf_matrix_determinant m) (pows / dim1 core))).
Proof.
  intros Hs Hd. unfold scalar_body. rewrite Hs, bind_ret.
  unfold call, tell, py_div. apply Nat.eqb_neq in Hd. rewrite Hd. reflexivity.
Qed.

Lemma scalar_body_zero_side (step : Scalar -> Scalar -> nat -> Scalar) (pows i : nat)
    (core : Core) (acc : Scalar) (m : Matrix) :
  slice00 core = ret m -> dim1 core = 0 ->
  scalar_body step pows i core acc
  = ([Call MatrixDeterminant i], inl ZeroDivisionError).
Proof.
  intros Hs Hd. unfold scalar_body. rewrite Hs, bind_ret.
  unfold call, tell, py_div. rewrite Hd. reflexivity.
Qed.

(** The second loop stops at the first core of side 0. *)
Lemma scalar_loop_zero_side (step : Scalar -> Scalar -> nat -> Scalar) (pows : nat)
    (core : Core) (post : list Core) (m : Matrix) :
  slice00 core = ret m -> dim1 core = 0 ->
  forall (pre : list Core) (i : nat) (acc : Scalar),
    Forall (fun c => dim1 c <> 0 /\ exists m0, slice00 c = ret m0) pre ->
    for_cores (pre ++ core :: post) i (scalar_body step pows) acc
    = (scalar_pass_trace i (S (length pre)), inl ZeroDivisionError).
Proof.
  intros Hs Hd. induction pre as [|c pre IH]; intros i acc Hpre.
  - cbn [app length].
    rewrite (for_cores_stop _ _ _ _ _ _ _
               (scalar_body_zero_side step pows i core acc m Hs Hd)).
    reflexivity.
  - inversion Hpre as [|? ? [Hc (m0 & Hs0)] Hpre']; subst.
    cbn [app length].
    rewrite (for_cores_step _ _ _ _ _ _ _
               (scalar_body_accepts step pows i c acc m0 Hs0 Hc)).
    rewrite (IH (S i) _ Hpre'). reflexivity.
Qed.

(** X6. Let an input pass the validator, with square cores, and let core
    [j] be the first core of side 0 (the cores up to it having a slice 0).
    Then [determinant] and [log_determinant] raise [ZeroDivisionError]: the
    first loop fetches every core, and the second stops at core [j], whose
    exponent is [0 / 0], after invoking the determinant primitive on the
    cores [0 .. j]. *)
Theorem zero_side_raises_zero_division (kron_a : TensorTrain)
    (pre : list Core) (core : Core) (post : list Core) (m : Matrix) :
  _is_kron kron_a = ret true ->
  all_square kron_a = true ->
  tt_cores kron_a = pre ++ core :: post ->
  Forall (fun c => dim1 c <> 0 /\ exists m0, slice00 c = ret m0) pre ->
  dim1 core = 0 ->
  slice00 core = ret m ->
  determinant kron_a
  = (map GetCore (seq 0 (ndims kron_a)) ++ scalar_pass_trace 0 (S (length pre)),
     inl ZeroDivisionError) /\
  log_determinant kron_a
  = (map GetCore (seq 0 (ndims kron_a)) ++ scalar_pass_trace 0 (S (length pre)),
     inl ZeroDivisionError).
Proof.
  intros Hk Hsq Hc Hpre Hd Hs.
  rewrite determinant_loops, log_determinant_loops, Hk, !bind_ret. cbn [negb].
  rewrite square_pass_run, (all_square_first_non_square _ Hsq), !bind_value.
  cbn [trace result fst snd]. rewrite Hc.
  rewrite !(scalar_loop_zero_side _ _ core post m Hs Hd pre 0 _ Hpre).
  split; reflexivity.
Qed.

End LoopFailures.

(* ===================================================================== *)
(** * Further properties: runs on valid inputs and their composition *)
(* ===================================================================== *)

Section ValidRuns.

Context {B : Backend}.

Lemma calls_pairs (p : prim) (l : list nat) :
  calls (flat_map (fun j => [GetCore j; Call p j]) l) = map (Call p) l.
Proof. induction l as [|j l IH]; [reflexivity|]. cbn. f_equal. exact IH. Qed.

(** X4. On a valid Kronecker input with [k] square cores, [determinant] and
    [log_determinant] fetch every core in a first loop, then fetch each core
    again and invoke the determinant primitive on it: [k] invocations, one
    per core, in the order of the cores, and no other primitive. [inv] and
    [cholesky], when they return a value, have invoked their primitive
    once per core, in the order of the cores. *)
Theorem one_primitive_call_per_core (kron_a : TensorTrain) :
  wf_tt kron_a = true ->
  _is_kron kron_a = ret true ->
  all_square kron_a = true ->
  let k := ndims kron_a in
  (trace (determinant kron_a)
   = map GetCore (seq 0 k)
     ++ flat_map (fun j => [GetCore j; Call MatrixDeterminant j]) (seq 0 k) /\
   calls (trace (determinant kron_a)) = map (Call MatrixDeterminant) (seq 0 k)) /\
  (trace (log_determinant kron_a)
   = map GetCore (seq 0 k)
     ++ flat_map (fun j => [GetCore j; Call MatrixDeterminant j]) (seq 0 k) /\
   calls (trace (log_determinant kron_a)) = map (Call MatrixDeterminant) (seq 0 k)) /\
  (match result (inv kron_a) with
   | inr _ => calls (trace (inv kron_a)) = map (Call MatrixInverse) (seq 0 k)
   | inl _ => True
   end) /\
  (match result (cholesky kron_a) with
   | inr _ => calls (trace (cholesky kron_a)) = map (Call Cholesky) (seq 0 k)
   | inl _ => True
   end).
Proof.
  intros Hwf Hk Hsq k.
  assert (Hv : valid_kron kron_a) by (repeat split; assumption).
  assert (Hcalls : calls (scalar_run_trace k) = map (Call MatrixDeterminant) (seq 0 k)).
  { unfold scalar_run_trace, scalar_pass_trace.
    rewrite calls_app, calls_get_cores, calls_pairs. reflexivity. }
  rewrite (determinant_run _ Hv), (log_determinant_run _ Hv).
  cbn [trace fst]. fold k.
  split; [split; [reflexivity|exact Hcalls]|].
  split; [split; [reflexivity|exact Hcalls]|].
  rewrite inv_rebuild, cholesky_rebuild. split.
  - destruct (map_option tf_matrix_inverse (factors kron_a)) as [fs'|] eqn:Hf.
    + rewrite (rebuild_run _ _ _ _ _ Hv Hf). cbn [result trace fst snd].
      apply calls_pairs.
    + rewrite (rebuild_failure _ _ _ _ Hv Hf). exact I.
  - destruct (map_option tf_cholesky (factors kron_a)) as [fs'|] eqn:Hf.
    + rewrite (rebuild_run _ _ _ _ _ Hv Hf). cbn [result trace fst snd].
      apply calls_pairs.
    + rewrite (rebuild_failure _ _ _ _ Hv Hf). exact I.
Qed.

(** A valid input is the value rebuilt from its own factors. *)
Lemma valid_kron_rebuilt (kron_a : TensorTrain) :
  valid_kron kron_a -> rebuilt kron_a (factors kron_a) = kron_a.
Proof.
  intros Hv. destruct (valid_kron_shape _ Hv) as (Hc & _ & _ & Hr).
  unfold rebuilt. rewrite <- Hc, <- Hr. destruct kron_a. reflexivity.
Qed.

(** X5. Inverting twice gives the input back. Let [kron_a] be a valid
    Kronecker input with square factors, each of which the inverse primitive
    maps to a matrix of the same shape that it maps back to the factor. Then
    [inv] returns a value on which [inv] returns [kron_a] itself: same
    cores, same shape descriptor, same linking ranks. *)
Theorem inv_round_trip (kron_a : TensorTrain) (fs' : list Matrix) :
  wf_tt kron_a = true ->
  _is_kron kron_a = ret true ->
  all_square kron_a = true ->
  Forall2 (fun m m' => tf_matrix_inverse m = Some m' /\
                       tf_matrix_inverse m' = Some m /\
                       mshape m' = mshape m) (factors kron_a) fs' ->
  exists out : TensorTrain,
    result (inv kron_a) = inr out /\
    factors out = fs' /\
    result (inv out) = inr kron_a.
Proof.
  intros Hwf Hk Hsq Hinv.
  assert (Hv : valid_kron kron_a) by (repeat split; assumption).
  destruct (valid_kron_shape _ Hv) as (Hc & Hs & Hmat & Hr).
  pose proof (valid_kron_ndims _ Hv) as Hlen.
  assert (Hf : map_option tf_matrix_inverse (factors kron_a) = Some fs').
  { apply map_option_Forall2. eapply Forall2_impl; [|exact Hinv].
    intros m m' (H & _). exact H. }
  assert (Hb : map_option tf_matrix_inverse fs' = Some (factors kron_a)).
  { apply map_option_Forall2. apply Forall2_flip.
    eapply Forall2_impl; [|exact Hinv]. intros m m' (_ & H & _). exact H. }
  assert (Hs' : square_factors fs').
  { clear - Hs Hinv. unfold square_factors in *.
    induction Hinv as [|m m' fs fs' (_ & _ & Hshape) _ IH]; [constructor|].
    inversion Hs as [|? ? Hm Hs0]; subst.
    constructor; [|apply IH, Hs0].
    unfold side in *. rewrite Hshape. exact Hm. }
  assert (Hlen' : length fs' = length (tt_cores kron_a)).
  { rewrite <- Hlen. symmetry. eapply Forall2_length, Hinv. }
  pose proof (rebuilt_valid kron_a fs' Hmat Hlen' Hs') as Hvo.
  assert (Hfo : factors (rebuilt kron_a fs') = fs') by apply factors_of_expanded.
  exists (rebuilt kron_a fs'). split; [|split; [exact Hfo|]].
  - rewrite inv_rebuild, (rebuild_run _ _ _ _ _ Hv Hf). reflexivity.
  - rewrite <- Hfo in Hb.
    rewrite inv_rebuild, (rebuild_run _ _ _ _ _ Hvo Hb). cbn [result snd]. f_equal.
    transitivity (rebuilt kron_a (factors kron_a)); [|apply valid_kron_rebuilt, Hv].
    unfold rebuilt. cbn [tt_cores raw_shape]. rewrite length_map, Hlen'.
    reflexivity.
Qed.

Lemma kron_size_app (fs1 fs2 : list Matrix) :
  kron_size (fs1 ++ fs2) = kron_size fs1 * kron_size fs2.
Proof.
  unfold kron_size. induction fs1 as [|m fs1 IH]; cbn [app map fold_right].
  - lia.
  - rewrite IH. lia.
Qed.

(** The side of a factor divides the product of the sides: the division
    [pows / side] of the second loop is exact. *)
Lemma side_divides_kron_size (fs : list Matrix) (m : Matrix) :
  In m fs -> Nat.divide (side m) (kron_size fs).
Proof.
  unfold kron_size. induction fs as [|m0 fs IH]; intros Hin; [contradiction|].
  cbn [map fold_right]. destruct Hin as [-> | Hin].
  - apply Nat.divide_mul_l, Nat.divide_refl.
  - apply Nat.divide_mul_r, IH, Hin.
Qed.

Lemma exponent_scaled (n n' s : nat) :
  0 < s -> Nat.divide s n -> (n * n') / s = (n / s) * n'.
Proof.
  intros Hs [q ->]. rewrite Nat.div_mul by lia.
  replace (q * s * n') with (q * n' * s) by lia.
  apply Nat.div_mul. lia.
Qed.

End ValidRuns.

Section Multiplicativity.

Context {B : Backend}.

(** Scalar multiplication is a commutative monoid on which powers act. *)
Hypothesis mul_comm : forall x y, tf_mul x y = tf_mul y x.
Hypothesis mul_assoc : forall x y z, tf_mul x (tf_mul y z) = tf_mul (tf_mul x y) z.
Hypothesis mul_one_l : forall x, tf_mul (of_int 1) x = x.
Hypothesis pow_mul : forall x y n, tf_pow (tf_mul x y) n = tf_mul (tf_pow x n) (tf_pow y n).
Hypothesis pow_pow : forall x a b, tf_pow (tf_pow x a) b = tf_pow x (a * b).
Hypothesis pow_of_one : forall n, tf_pow (of_int 1) n = of_int 1.

Lemma product_from (xs : list Scalar) :
  forall acc, fold_left tf_mul xs acc = tf_mul acc (product xs).
Proof.
  unfold product. induction xs as [|x xs IH]; intros acc; cbn [fold_left].
  - rewrite mul_comm, mul_one_l. reflexivity.
  - rewrite IH, (IH (tf_mul (of_int 1) x)), mul_one_l, mul_assoc. reflexivity.
Qed.

Lemma product_cons (x : Scalar) (xs : list Scalar) :
  product (x :: xs) = tf_mul x (product xs).
Proof.
  unfold product at 1. cbn [fold_left]. rewrite product_from, mul_one_l. reflexivity.
Qed.

Lemma product_app (xs ys : list Scalar) :
  product (xs ++ ys) = tf_mul (product xs) (product ys).
Proof.
  unfold product at 1. rewrite fold_left_app, product_from. reflexivity.
Qed.

Lemma pow_product (xs : list Scalar) (n : nat) :
  tf_pow (product xs) n = product (map (fun x => tf_pow x n) xs).
Proof.
  induction xs as [|x xs IH].
  - cbn. apply pow_of_one.
  - cbn [map]. rewrite !product_cons, pow_mul, IH. reflexivity.
Qed.

(** The determinant formula of the factors [fs], with every exponent scaled
    by [n], is its [n]-th power. *)
Lemma kron_det_scaled (fs : list Matrix) (n : nat) :
  square_factors fs ->
  product (map (fun m => tf_pow (tf_matrix_determinant m)
                                ((kron_size fs * n) / side m)) fs)
  = tf_pow (kron_det fs) n.
Proof.
  intros Hs. unfold kron_det. rewrite pow_product, map_map. f_equal.
  apply map_ext_in. intros m Hin. rewrite pow_pow. f_equal.
  unfold exponent. apply exponent_scaled.
  - unfold square_factors in Hs. rewrite Forall_forall in Hs. apply (Hs m Hin).
  - apply side_divides_kron_size, Hin.
Qed.

(** X7. The determinant identity of a Kronecker product, as the code
    computes it: when the factors of [kron_c] are those of [kron_a] followed
    by those of [kron_b] (all three valid inputs), [determinant] returns on
    [kron_c] the product of what it returns on [kron_a], raised to the size
    of [kron_b], and what it returns on [kron_b], raised to the size of
    [kron_a]: det(A (x) B) = det(A)^size(B) * det(B)^size(A). *)
Theorem determinant_of_kronecker_product (kron_a kron_b kron_c : TensorTrain) :
  valid_kron kron_a ->
  valid_kron kron_b ->
  valid_kron kron_c ->
  factors kron_c = factors kron_a ++ factors kron_b ->
  exists da db : Scalar,
    result (determinant kron_a) = inr da /\
    result (determinant kron_b) = inr db /\
    result (determinant kron_c)
    = inr (tf_mul (tf_pow da (kron_size (factors kron_b)))
                  (tf_pow db (kron_size (factors kron_a)))).
Proof.
  intros Ha Hb Hc Hfc.
  destruct (valid_kron_shape _ Ha) as (_ & Hsa & _).
  destruct (valid_kron_shape _ Hb) as (_ & Hsb & _).
  exists (kron_det (factors kron_a)), (kron_det (factors kron_b)).
  rewrite (determinant_run _ Ha), (determinant_run _ Hb), (determinant_run _ Hc).
  repeat split. cbn [result snd]. f_equal.
  rewrite Hfc. unfold kron_det at 1, exponent.
  rewrite map_app, product_app, kron_size_app.
  rewrite (kron_det_scaled _ _ Hsa).
  replace (map (fun m => tf_pow (tf_matrix_determinant m)
                           ((kron_size (factors kron_a) * kron_size (factors kron_b))
                            / side m)) (factors kron_b))
    with (map (fun m => tf_pow (tf_matrix_determinant m)
                           ((kron_size (factors kron_b) * kron_size (factors kron_a))
                            / side m)) (factors kron_b)).
  2:{ apply map_ext. intros m. rewrite (Nat.mul_comm (kron_size (factors kron_b))).
      reflexivity. }
  rewrite (kron_det_scaled _ _ Hsb). reflexivity.
Qed.

End Multiplicativity.

(* ===================================================================== *)
(** * Concrete runs of the further properties *)
(* ===================================================================== *)

Section FurtherRuns.

Import Examples.

(** C (x) Z: the second factor is singular and has no Cholesky factor, so
    [inv] and [cholesky] fetch both cores, invoke their primitive on both
    and fail on the second. *)
Lemma numeric_failure_stops_at_first_rejected_witness :
  inv (kron_of (B := RealBackend) [mat_C; mat_Z])
  = ([GetCore 0; Call MatrixInverse 0; GetCore 1; Call MatrixInverse 1],
     inl (NumericFailure MatrixInverse)) /\
  cholesky (kron_of (B := RealBackend) [mat_C; mat_Z])
  = ([GetCore 0; Call Cholesky 0; GetCore 1; Call Cholesky 1],
     inl (NumericFailure Cholesky)).
Proof.
  destruct (numeric_failure_stops_at_first_rejected (B := RealBackend)
              (kron_of (B := RealBackend) [mat_C; mat_Z])
              [expand_dims2 (B := RealBackend) mat_C]
              (expand_dims2 (B := RealBackend) mat_Z) [] mat_Z
              eq_refl eq_refl eq_refl eq_refl) as [Hinv Hchol].
  split.
  - apply Hinv; [|reflexivity].
    constructor; [|constructor].
    split; [reflexivity|]. exists mat_C, inv_C. split; reflexivity.
  - apply Hchol; [|reflexivity].
    constructor; [|constructor].
    split; [reflexivity|]. exists mat_C, chol_C. split; reflexivity.
Defined.

(** On C (x) D every operation invokes its primitive on core 0, then on
    core 1. *)
Lemma one_primitive_call_per_core_witness :
  calls (trace (determinant kron_CD))
  = [Call MatrixDeterminant 0; Call MatrixDeterminant 1] /\
  calls (trace (log_determinant kron_CD))
  = [Call MatrixDeterminant 0; Call MatrixDeterminant 1] /\
  calls (trace (inv kron_CD)) = [Call MatrixInverse 0; Call MatrixInverse 1] /\
  calls (trace (cholesky kron_CD)) = [Call Cholesky 0; Call Cholesky 1].
Proof.
  destruct (one_primitive_call_per_core (B := RealBackend) kron_CD
              eq_refl eq_refl eq_refl) as ((_ & Hd) & (_ & Hl) & Hi & Hc).
  split; [exact Hd|]. split; [exact Hl|]. split; [exact Hi|exact Hc].
Defined.

(** The inverse of C (x) D has the factors [inv_C] and [inv_D], and its
    inverse is C (x) D. *)
Lemma inv_round_trip_witness :
  exists out : @TensorTrain RealBackend,
    result (inv kron_CD) = inr out /\
    factors out = [inv_C; inv_D] /\
    result (inv out) = inr kron_CD.
Proof.
  apply (inv_round_trip (B := RealBackend) kron_CD [inv_C; inv_D]
           eq_refl eq_refl eq_refl).
  repeat constructor.
Defined.

(** A (x) E with the 0 x 0 matrix E: both scalar operations complete the
    squareness loop, handle core 0 and raise on the division for core 1. *)
Lemma zero_side_raises_zero_division_witness :
  determinant (kron_of (B := RealBackend) [mat_A; []])
  = ([GetCore 0; GetCore 1;
      GetCore 0; Call MatrixDeterminant 0; GetCore 1; Call MatrixDeterminant 1],
     inl ZeroDivisionError) /\
  log_determinant (kron_of (B := RealBackend) [mat_A; []])
  = ([GetCore 0; GetCore 1;
      GetCore 0; Call MatrixDeterminant 0; GetCore 1; Call MatrixDeterminant 1],
     inl ZeroDivisionError).
Proof.
  apply (zero_side_raises_zero_division (B := RealBackend)
           (kron_of (B := RealBackend) [mat_A; []])
           [expand_dims2 (B := RealBackend) mat_A]
           (expand_dims2 (B := RealBackend) []) [] []
           eq_refl eq_refl eq_refl);
    [|reflexivity|reflexivity].
  constructor; [|constructor].
  split; [discriminate|]. exists mat_A. reflexivity.
Defined.

Lemma kron_A_valid : valid_kron kron_A.
Proof. repeat split. Qed.

Lemma kron_B_valid : valid_kron (kron_of (B := RealBackend) [mat_B]).
Proof. repeat split. Qed.

(** det(A (x) B) = det(A)^3 * det(B)^2 over the reals. *)
Lemma determinant_of_kronecker_product_witness :
  exists da db : R,
    result (determinant kron_A) = inr da /\
    result (determinant (kron_of (B := RealBackend) [mat_B])) = inr db /\
    result (determinant kron_AB) = inr (da ^ 3 * db ^ 2)%R.
Proof.
  apply (determinant_of_kronecker_product (B := RealBackend)
           Rmult_comm (fun x y z => eq_sym (Rmult_assoc x y z)) Rmult_1_l
           Rpow_mult_distr (fun x a b => eq_sym (pow_mult x a b)) pow1
           kron_A (kron_of (B := RealBackend) [mat_B]) kron_AB
           kron_A_valid kron_B_valid kron_AB_valid eq_refl).
Defined.

End FurtherRuns.
